(** * ArithmeticParser: recursive-descent compiler to postfix and its stack evaluator

    Shallow embedding of [arithmetic_parser.cpp] (module
    gaivanuk-alexander-arithmetic-parser).  The C++ class keeps the cursor
    [data], the lookahead [token], the scratch vector [buf] and the compiled
    postfix program [rpn] as members; here they become the fields of a record
    that every member function passes along.  [double] is IEEE binary64
    ([PrimFloat.float]), [int] is a 32-bit two's complement integer written
    on [Z] with its wrap-around, [char] is [ascii]. *)

From Stdlib Require Import List Bool Arith ZArith Lia Ascii String.
From Stdlib Require Import Uint63 PrimFloat SpecFloat FloatOps.
Import ListNotations.

Set Implicit Arguments.

(** ** Characters: <ctype.h> in the "C" locale

    A byte above 127 is neither a blank, a digit nor a letter. *)

Module CType.

Definition code (c : ascii) : nat := nat_of_ascii c.

Definition NUL : ascii := ascii_of_nat 0.

(** space, \t, \n, \v, \f, \r *)
Definition isspace (c : ascii) : bool :=
  (code c =? 32) || ((9 <=? code c) && (code c <=? 13)).

Definition isdigit (c : ascii) : bool :=
  (48 <=? code c) && (code c <=? 57).

Definition isupper (c : ascii) : bool :=
  (65 <=? code c) && (code c <=? 90).

Definition islower (c : ascii) : bool :=
  (97 <=? code c) && (code c <=? 122).

Definition isalpha (c : ascii) : bool := isupper c || islower c.

Definition tolower (c : ascii) : ascii :=
  if isupper c then ascii_of_nat (code c + 32) else c.

Definition is_char (c d : ascii) : bool := Ascii.eqb c d.

(** [c - '0'] *)
Definition digit_val (c : ascii) : Z := Z.of_nat (code c) - 48.

End CType.
Import CType.

(** ** Machine numbers *)

Module Num.

(** [int]: 32 bits, two's complement.  The source never checks the
    accumulation [n * 10 + c - '0'] for overflow; the embedding wraps, as
    the usual targets do. *)
Definition wrap32 (z : Z) : Z :=
  ((z + 2147483648) mod 4294967296 - 2147483648)%Z.

(** Correct rounding (to nearest, ties to even) of [m * 2^e] to binary64. *)
Definition round_pow2 (m e : Z) : float :=
  SF2Prim (binary_normalize prec emax m e false).

(** [static_cast<double>(n)] *)
Definition double_of_int (n : Z) : float := round_pow2 n 0.

(** Correct rounding of the positive rational [num / den].  The quotient is
    taken with 64 or more significant bits and the remainder is folded into
    a sticky last bit, so that one rounding to nearest-even is exact. *)
Definition round_ratio (num den : Z) : float :=
  if (num <=? 0)%Z || (den <=? 0)%Z then zero
  else
    let s := Z.max 0 (66 + Z.log2 den - Z.log2 num) in
    let q := (num * 2 ^ s / den)%Z in
    let r := (num * 2 ^ s mod den)%Z in
    let sticky := if (r =? 0)%Z then 0%Z else 1%Z in
    round_pow2 (2 * q + sticky) (- s - 1).

(** Correct rounding of [m * 10^e10]. *)
Definition round_dec (m e10 : Z) : float :=
  if (0 <=? e10)%Z then round_pow2 (m * 10 ^ e10) 0
  else round_ratio m (10 ^ (- e10)).

End Num.
Import Num.

(** ** Tokens

    Modelled from the spec: the header [arithmetic_parser.h] that declares
    [token_t], [Token], [nextToken] and [expectToken] is not part of the
    sources at hand.  The enumerators are the twelve discriminants of the
    data model; the first seven are listed in the order of the delimiter
    table, which is what the cast [(token_t)index] of [getToken] needs to
    send every delimiter to its own token. *)

Inductive token_t : Set :=
  | T_POW | T_PLUS | T_MINUS | T_MUL | T_DIV | T_LPAREN | T_RPAREN
  | T_NEGATE | T_NUMBER | T_X | T_FUNC | T_END.

Definition token_t_eqb (a b : token_t) : bool :=
  match a, b with
  | T_POW, T_POW | T_PLUS, T_PLUS | T_MINUS, T_MINUS | T_MUL, T_MUL
  | T_DIV, T_DIV | T_LPAREN, T_LPAREN | T_RPAREN, T_RPAREN
  | T_NEGATE, T_NEGATE | T_NUMBER, T_NUMBER | T_X, T_X | T_FUNC, T_FUNC
  | T_END, T_END => true
  | _, _ => false
  end.

(** [(token_t)index] *)
Definition token_t_of_index (index : nat) : token_t :=
  nth index [T_POW; T_PLUS; T_MINUS; T_MUL; T_DIV; T_LPAREN; T_RPAREN] T_END.

(** Modelled from the spec: a token is its discriminant, a floating-point
    payload (read for NUMBER) and an integer payload (read for FUNCTION);
    a payload that a constructor does not receive is zero. *)
Record Token : Set := mkToken {
  type : token_t;
  realValue : float;
  intValue : nat
}.

(** [Token(t)], [Token(t, double)], [Token(t, int)] *)
Definition Tok (t : token_t) : Token := mkToken t zero 0.
Definition TokReal (t : token_t) (v : float) : Token := mkToken t v 0.
Definition TokInt (t : token_t) (i : nat) : Token := mkToken t zero i.

(** ** The static tables *)

Definition delims : list ascii :=
  ["^"; "+"; "-"; "*"; "/"; "("; ")"]%char.

Definition funcnames : list string :=
  ["cos"; "sin"; "tg"; "ctg"; "arcsin"; "arccos"; "arctg"; "ln"; "lg"; "abs"]%string.

(** The functions of <math.h> that the program calls.  They are outside the
    repository, so the evaluator takes them as an interface. *)
Record libm : Type := mkLibm {
  m_pow : float -> float -> float;
  m_cos : float -> float;
  m_sin : float -> float;
  m_tan : float -> float;
  m_asin : float -> float;
  m_acos : float -> float;
  m_atan : float -> float;
  m_log : float -> float;
  m_log10 : float -> float
}.

(** [functions[]]; [fabs] is the IEEE operation itself. *)
Definition functions (m : libm) : list (float -> float) :=
  [ m_cos m; m_sin m; m_tan m; (fun x => 1 / m_tan m x)%float;
    m_asin m; m_acos m; m_atan m; m_log m; m_log10 m; PrimFloat.abs ].

(** [std::find] followed by [std::distance] from [begin()]. *)
Fixpoint find_index {A : Type} (eqb : A -> A -> bool) (x : A) (l : list A)
  : option nat :=
  match l with
  | [] => None
  | y :: l' => if eqb y x then Some 0
               else option_map S (find_index eqb x l')
  end.

(** ** [std::vector<char>] as a block of storage

    [storage] holds the bytes of the allocated block (its length is the
    capacity) and [size] counts the live elements.  [clear] only resets
    [size]: the cells keep the bytes last written to them, which is what a
    later read through [data()] finds when no terminator was pushed. *)

Record char_vector : Set := mkVec {
  storage : list ascii;
  size : nat
}.

Fixpoint set_nth (i : nat) (c : ascii) (l : list ascii) : list ascii :=
  match l, i with
  | [], _ => []
  | _ :: l', O => c :: l'
  | d :: l', S j => d :: set_nth j c l'
  end.

(** The memory the allocator hands out, which the program does not choose:
    [fresh] gives the bytes found in a newly allocated block, by offset in
    the block; [behind] gives, for a block of the given capacity, the bytes
    that lie behind it, as far as a string read that runs off the block goes
    before it meets a NUL. *)
Record memory : Type := mkMemory {
  fresh : nat -> ascii;
  behind : nat -> list ascii
}.

Section Vector.

Variable uninit : memory.

Definition v_empty : char_vector := mkVec [] 0.

Definition capacity (v : char_vector) : nat := List.length (storage v).

(** [reserve(n)]: a new block when the capacity is too small; the live
    elements move, the rest of the block is uninitialised. *)
Definition v_reserve (n : nat) (v : char_vector) : char_vector :=
  if capacity v <? n
  then mkVec (firstn (size v) (storage v)
              ++ map (fresh uninit) (seq (size v) (n - size v))) (size v)
  else v.

Definition v_clear (v : char_vector) : char_vector := mkVec (storage v) 0.

(** [push_back(c)]: the capacity doubles when the block is full. *)
Definition v_push_back (c : ascii) (v : char_vector) : char_vector :=
  let v' := if size v <? capacity v then v
            else v_reserve (Nat.max 1 (2 * capacity v)) v in
  mkVec (set_nth (size v') c (storage v')) (S (size v')).

(** [data()]: the bytes found from the start of the block. *)
Definition v_data (v : char_vector) : list ascii := storage v.

(** What a read through the pointer [data()] walks over: the block, and
    behind it the memory that follows.  Nothing stops such a read at the end
    of the block. *)
Definition v_data_read (v : char_vector) : list ascii :=
  v_data v ++ behind uninit (capacity v).

End Vector.

(** A C string read through a [const char *]: the bytes before the first
    NUL of the memory the pointer leads to. *)
Fixpoint c_str (bytes : list ascii) : list ascii :=
  match bytes with
  | [] => []
  | c :: r => if is_char c NUL then [] else c :: c_str r
  end.

(** ** [atof]

    The decimal syntax of [strtod]: blanks, a sign, digits with an optional
    point, an optional exponent; the value is rounded correctly.  The
    conversion stops at the first byte that does not continue the number.
    The hexadecimal, infinity and NaN spellings are left out: the program
    only converts strings that start with "0.". *)

Module Atof.

Fixpoint skip_space (l : list ascii) : list ascii :=
  match l with
  | c :: r => if isspace c then skip_space r else l
  | [] => []
  end.

(** Digits read, their value and their count, and what follows them. *)
Fixpoint scan_digits (acc cnt : Z) (l : list ascii) : Z * Z * list ascii :=
  match l with
  | c :: r => if isdigit c
              then scan_digits (acc * 10 + digit_val c) (cnt + 1) r
              else (acc, cnt, l)
  | [] => (acc, cnt, [])
  end.

Definition scan_sign (l : list ascii) : bool * list ascii :=
  match l with
  | c :: r => if is_char c "-" then (true, r)
              else if is_char c "+" then (false, r) else (false, l)
  | [] => (false, [])
  end.

Definition scan_exponent (l : list ascii) : Z :=
  match l with
  | c :: r =>
      if is_char c "e" || is_char c "E" then
        let (neg, r1) := scan_sign r in
        let '(e, cnt, _) := scan_digits 0 0 r1 in
        if (cnt =? 0)%Z then 0%Z else if neg then (- e)%Z else e
      else 0%Z
  | [] => 0%Z
  end.

Definition atof (bytes : list ascii) : float :=
  let (neg, l0) := scan_sign (skip_space (c_str bytes)) in
  let '(ip, ni, l1) := scan_digits 0 0 l0 in
  let '(m, nf, l2) :=
    match l1 with
    | c :: r => if is_char c "." then scan_digits ip 0 r else (ip, 0%Z, l1)
    | [] => (ip, 0%Z, l1)
    end in
  if (ni + nf =? 0)%Z then zero
  else
    let v := round_dec m (scan_exponent l2 - nf) in
    if neg then (- v)%float else v.

End Atof.
Import Atof.

(** ** The parser object and its control flow *)

Record ArithmeticParser : Set := mkParser {
  data : list ascii;      (* the characters from the cursor on *)
  token : Token;          (* the lookahead *)
  buf : char_vector;      (* scratch storage of the lexer *)
  rpn : list Token        (* the compiled postfix program *)
}.

Definition set_data (d : list ascii) (p : ArithmeticParser) :=
  mkParser d (token p) (buf p) (rpn p).
Definition set_token (t : Token) (p : ArithmeticParser) :=
  mkParser (data p) t (buf p) (rpn p).
Definition set_buf (b : char_vector) (p : ArithmeticParser) :=
  mkParser (data p) (token p) b (rpn p).
Definition set_rpn (r : list Token) (p : ArithmeticParser) :=
  mkParser (data p) (token p) (buf p) r.

(** What the source throws: a [Token], or a [const char *] ([data] or the
    name held in [buf]). *)
Inductive exn : Set :=
  | ExToken (t : Token)
  | ExCharPtr (s : list ascii).

(** A member function either returns, throws, or (in the embedding only)
    stops for lack of recursion fuel; it hands the object on in every case. *)
Inductive outcome (A : Type) : Type :=
  | Ok (a : A)
  | Throw (e : exn)
  | OutOfFuel.
Arguments Ok {A} a.
Arguments Throw {A} e.
Arguments OutOfFuel {A}.

Definition M (A : Type) : Type :=
  ArithmeticParser -> outcome A * ArithmeticParser.

Definition ret {A : Type} (a : A) : M A := fun p => (Ok a, p).

Definition throw {A : Type} (e : exn) : M A := fun p => (Throw e, p).

Definition out_of_fuel {A : Type} : M A := fun p => (OutOfFuel, p).

Definition bind {A B : Type} (m : M A) (f : A -> M B) : M B :=
  fun p =>
    match m p with
    | (Ok a, p') => f a p'
    | (Throw e, p') => (Throw e, p')
    | (OutOfFuel, p') => (OutOfFuel, p')
    end.

Declare Scope parser_scope.
Delimit Scope parser_scope with parser.
Notation "x <- m ;; k" := (bind m (fun x => k))
  (at level 61, m at next level, right associativity) : parser_scope.
Notation "m ;; k" := (bind m (fun _ => k))
  (at level 61, right associativity) : parser_scope.
Open Scope parser_scope.

Definition get_token : M Token := fun p => (Ok (token p), p).

(** [rpn.push_back(t)] *)
Definition rpn_push_back (t : Token) : M unit :=
  fun p => (Ok tt, set_rpn (rpn p ++ [t]) p).

(** [*data]: the terminating NUL once the characters are used up. *)
Definition peek (d : list ascii) : ascii := hd NUL d.

(** ** The lexer: [getToken] *)

Section Lexer.

Variable uninit : memory.

(** [while (isdigit(c)) { n = n * 10 + c - '0'; c = *++data; }] *)
Fixpoint number_digits (n : Z) (d : list ascii) : Z * list ascii :=
  match d with
  | c :: d' =>
      if isdigit c
      then number_digits (wrap32 (n * 10 + Z.of_nat (code c) - 48)) d'
      else (n, d)
  | [] => (n, [])
  end.

(** [do { buf.push_back(c); c = *++data; } while (isdigit(c));] entered
    with a digit under the cursor. *)
Fixpoint fraction_digits (d : list ascii) (b : char_vector)
  : list ascii * char_vector :=
  match d with
  | c :: d' =>
      if isdigit c then fraction_digits d' (v_push_back uninit c b)
      else (d, b)
  | [] => ([], b)
  end.

(** [while (isalpha(c)) { buf.push_back(c); c = *++data; }] *)
Fixpoint name_letters (d : list ascii) (b : char_vector)
  : list ascii * char_vector :=
  match d with
  | c :: d' =>
      if isalpha c then name_letters d' (v_push_back uninit c b)
      else (d, b)
  | [] => ([], b)
  end.

(** [case TS_NUMBER], entered with the first digit already in [n]. *)
Definition TS_NUMBER (n : Z) (d : list ascii) : M Token :=
  fun p =>
    let (n, d1) := number_digits n d in
    if is_char (peek d1) "." then
      let d2 := tl d1 in
      if negb (isdigit (peek d2)) then (Throw (ExCharPtr d2), set_data d2 p)
      else
        let b := v_push_back uninit "."
                   (v_push_back uninit "0" (v_clear (buf p))) in
        let (d3, b') := fraction_digits d2 b in
        let value :=
          (double_of_int n + atof (v_data_read uninit b'))%float in
        (Ok (TokReal T_NUMBER value), set_buf b' (set_data d3 p))
    else (Ok (TokReal T_NUMBER (double_of_int n)), set_data d1 p).

(** [case TS_FUNCNAME] *)
Definition TS_FUNCNAME (d : list ascii) : M Token :=
  fun p =>
    let (d1, b) := name_letters d (v_clear (buf p)) in
    let b' := v_push_back uninit NUL b in
    let str := c_str (v_data_read uninit b') in
    match find_index String.eqb (string_of_list_ascii str) funcnames with
    | Some index => (Ok (TokInt T_FUNC index), set_buf b' (set_data d1 p))
    | None => (Throw (ExCharPtr str), set_buf b' (set_data d1 p))
    end.

(** [case TS_DELIM] *)
Definition TS_DELIM (d : list ascii) : M Token :=
  fun p =>
    match find_index Ascii.eqb (peek d) delims with
    | Some index => (Ok (Tok (token_t_of_index index)), set_data (tl d) p)
    | None => (Throw (ExCharPtr d), set_data d p)
    end.

(** [case TS_INITIAL]; the recursion is the loop over blanks. *)
Fixpoint TS_INITIAL (d : list ascii) : M Token :=
  fun p =>
    match d with
    | [] => (Ok (Tok T_END), set_data [] p)
    | c :: d' =>
        if isspace c then TS_INITIAL d' p
        else if is_char (tolower c) "x" then (Ok (Tok T_X), set_data d' p)
        else if isdigit c then TS_NUMBER (digit_val c) d' p
        else if isalpha c then TS_FUNCNAME d p
        else if is_char c NUL then (Ok (Tok T_END), set_data d p)
        else TS_DELIM d p
    end.

Definition getToken : M Token := fun p => TS_INITIAL (data p) p.

(** Modelled from the spec: [nextToken] (declared in the absent header)
    pulls one token from the lexer into the lookahead. *)
Definition nextToken : M unit :=
  t <- getToken ;; fun p => (Ok tt, set_token t p).

(** Modelled from the spec: [expectToken] (declared in the absent header)
    fails when the lookahead is not of the given kind and changes nothing
    otherwise. *)
Definition expectToken (t : token_t) : M unit :=
  tok <- get_token ;;
  if token_t_eqb (type tok) t then ret tt else throw (ExToken tok).

(** ** The grammar: [EXPR], [EXPR2], [EXPR3], [EXPR4]

    The four functions call each other; the embedding recurses on a fuel
    counter, and the two [while] loops are the functions [EXPR_while] and
    [EXPR2_while]. *)

Fixpoint EXPR (fuel : nat) : M unit :=
  match fuel with
  | O => out_of_fuel
  | S f => EXPR2 f ;; EXPR_while f
  end
with EXPR_while (fuel : nat) : M unit :=
  match fuel with
  | O => out_of_fuel
  | S f =>
      tok <- get_token ;;
      if token_t_eqb (type tok) T_PLUS || token_t_eqb (type tok) T_MINUS
      then
        let tt := type tok in
        nextToken ;; EXPR2 f ;; rpn_push_back (Tok tt) ;; EXPR_while f
      else ret tt
  end
with EXPR2 (fuel : nat) : M unit :=
  match fuel with
  | O => out_of_fuel
  | S f => EXPR3 f ;; EXPR2_while f
  end
with EXPR2_while (fuel : nat) : M unit :=
  match fuel with
  | O => out_of_fuel
  | S f =>
      tok <- get_token ;;
      if token_t_eqb (type tok) T_MUL || token_t_eqb (type tok) T_DIV
      then
        let tt := type tok in
        nextToken ;; EXPR3 f ;; rpn_push_back (Tok tt) ;; EXPR2_while f
      else ret tt
  end
with EXPR3 (fuel : nat) : M unit :=
  match fuel with
  | O => out_of_fuel
  | S f =>
      EXPR4 f ;;
      tok <- get_token ;;
      if token_t_eqb (type tok) T_POW
      then nextToken ;; EXPR4 f ;; rpn_push_back (Tok T_POW)
      else ret tt
  end
with EXPR4 (fuel : nat) : M unit :=
  match fuel with
  | O => out_of_fuel
  | S f =>
      tok <- get_token ;;
      if token_t_eqb (type tok) T_FUNC then
        let functionIndex := intValue tok in
        nextToken ;;
        expectToken T_LPAREN ;;
        nextToken ;;
        EXPR f ;;
        expectToken T_RPAREN ;;
        nextToken ;;
        rpn_push_back (TokInt T_FUNC functionIndex)
      else if token_t_eqb (type tok) T_X then
        rpn_push_back (Tok T_X) ;;
        nextToken
      else if token_t_eqb (type tok) T_NUMBER then
        rpn_push_back tok ;;
        nextToken ;;
        tok' <- get_token ;;
        if token_t_eqb (type tok') T_X then
          rpn_push_back (Tok T_X) ;;
          rpn_push_back (Tok T_MUL) ;;
          nextToken
        else if token_t_eqb (type tok') T_LPAREN then
          nextToken ;;
          EXPR f ;;
          expectToken T_RPAREN ;;
          nextToken ;;
          rpn_push_back (Tok T_MUL)
        else ret tt
      else if token_t_eqb (type tok) T_LPAREN then
        nextToken ;;
        EXPR f ;;
        expectToken T_RPAREN ;;
        nextToken
      else if token_t_eqb (type tok) T_MINUS then
        nextToken ;;
        EXPR4 f ;;
        rpn_push_back (Tok T_NEGATE)
      else throw (ExToken tok)
  end.

(** ** [parse] *)

(** Fuel that the descent cannot use up: every recursive call but the
    first few follows a consumed token (see [parse_fuel_enough]). *)
Definition parse_fuel (s : string) : nat := 6 * String.length s + 10.

Definition parse_body (fuel : nat) : M unit :=
  nextToken ;; EXPR fuel ;; expectToken T_END.

Definition parse_with (fuel : nat) (s : string) (p : ArithmeticParser)
  : outcome bool * ArithmeticParser :=
  let p0 := mkParser (list_ascii_of_string s) (token p)
                     (v_reserve uninit 80 v_empty) [] in
  match parse_body fuel p0 with
  | (Ok _, p') => (Ok true, p')
  | (Throw _, p') => (Ok false, set_rpn [] p')
  | (OutOfFuel, p') => (OutOfFuel, p')
  end.

Definition parse (s : string) (p : ArithmeticParser)
  : outcome bool * ArithmeticParser :=
  parse_with (parse_fuel s) s p.

End Lexer.

(** ** The evaluator: [evaluate]

    [nums] is the local [std::stack<double>], top first.  [top()] or [pop()]
    on an empty stack and an index outside [functions] are undefined in the
    source; the embedding answers [None] there. *)

(** A member function that cannot throw: a result, or [None] where the
    behaviour is undefined, and the object as the call leaves it. *)
Definition Member (A : Type) : Type :=
  ArithmeticParser -> option A * ArithmeticParser.

Definition member_ret {A : Type} (a : A) : Member A := fun p => (Some a, p).

Definition member_lift {A : Type} (o : option A) : Member A := fun p => (o, p).

Definition member_bind {A B : Type} (c : Member A) (k : A -> Member B)
  : Member B :=
  fun p =>
    match c p with
    | (Some a, p') => k a p'
    | (None, p') => (None, p')
    end.

(** [rpn.size()] *)
Definition rpn_size : Member nat := fun p => (Some (List.length (rpn p)), p).

(** [rpn[i]], undefined out of range. *)
Definition rpn_at (i : nat) : Member Token :=
  fun p => (nth_error (rpn p) i, p).

Section Evaluator.

Variable m : libm.

(** [x = nums.top(); nums.pop();] *)
Definition top_pop (nums : list float) : option (float * list float) :=
  match nums with
  | v :: nums' => Some (v, nums')
  | [] => None
  end.

(** The operator branch of the loop body, after the operands were popped;
    [op1] is only set for the binary operators. *)
Definition apply_op (t : Token) (op1 op2 : float) (nums : list float)
  : option (list float) :=
  match type t with
  | T_PLUS => Some ((op1 + op2)%float :: nums)
  | T_MINUS => Some ((op1 - op2)%float :: nums)
  | T_MUL => Some ((op1 * op2)%float :: nums)
  | T_DIV => Some ((op1 / op2)%float :: nums)
  | T_POW => Some (m_pow m op1 op2 :: nums)
  | T_NEGATE => Some ((- op2)%float :: nums)
  | T_FUNC =>
      match nth_error (functions m) (intValue t) with
      | Some f => Some (f op2 :: nums)
      | None => None
      end
  | _ => Some nums
  end.

(** One turn of the [for] loop. *)
Definition eval_step (x : float) (t : Token) (nums : list float)
  : option (list float) :=
  match type t with
  | T_NUMBER => Some (realValue t :: nums)
  | T_X => Some (x :: nums)
  | ty =>
      match top_pop nums with
      | None => None
      | Some (op2, nums1) =>
          match ty with
          | T_NEGATE | T_FUNC => apply_op t zero op2 nums1
          | _ =>
              match top_pop nums1 with
              | None => None
              | Some (op1, nums2) => apply_op t op1 op2 nums2
              end
          end
      end
  end.

(** The [for] loop over [rpn], from the stack [nums]. *)
Fixpoint eval_loop (x : float) (code : list Token) (nums : list float)
  : option (list float) :=
  match code with
  | [] => Some nums
  | t :: code' =>
      match eval_step x t nums with
      | Some nums' => eval_loop x code' nums'
      | None => None
      end
  end.

Definition evaluate (p : ArithmeticParser) (x : float) : option float :=
  let s := List.length (rpn p) in
  if s =? 0 then Some zero
  else
    match eval_loop x (rpn p) [] with
    | Some nums => option_map fst (top_pop nums)
    | None => None
    end.

(** *** [evaluate] as the member function it is

    The same function written over the object: [rpn.size()] and each
    [rpn[i]] are read from the object the call was handed, turn by turn, and
    the object is handed on, so that a write to a member, were there one,
    would show in the object returned and in the turns that follow. *)

(** [for (int i = ...; i < s; i++)], with [count] turns left. *)
Fixpoint evaluate_for (x : float) (i count : nat) (nums : list float)
  : Member (list float) :=
  match count with
  | O => member_ret nums
  | S count' =>
      member_bind (rpn_at i) (fun t =>
      member_bind (member_lift (eval_step x t nums)) (fun nums' =>
      evaluate_for x (S i) count' nums'))
  end.

Definition evaluate_call (x : float) : Member float :=
  member_bind rpn_size (fun s =>
  if s =? 0 then member_ret zero
  else
    member_bind (evaluate_for x 0 s []) (fun nums =>
    member_lift (option_map fst (top_pop nums)))).

End Evaluator.

(** Modelled from the spec: the constructor lives in the absent header; a
    new object has compiled nothing ("no successful parse yet"). *)
Definition new_parser : ArithmeticParser :=
  mkParser [] (Tok T_END) v_empty [].

(** Memory that happens to be zero-filled, as fresh pages are. *)
Definition zeroed : memory := mkMemory (fun _ => NUL) (fun _ => []).

(** The memory found by a [parse] whose allocator hands back the block the
    [parse] before it released: the first [owned] bytes of a released block
    are the allocator's ([meta]), the others are as the lexer left them in
    the object [p]. *)
Definition recycled (owned : nat) (meta : nat -> ascii)
  (bh : nat -> list ascii) (p : ArithmeticParser) : memory :=
  mkMemory (fun i => if i <? owned then meta i
                     else nth i (storage (buf p)) NUL) bh.

(** A <math.h> good enough to run the examples that only square: [pow]
    is exact on the exponent 2 and the other functions are not consulted. *)
Definition square_libm : libm :=
  mkLibm (fun a b => (a * a)%float)
         (fun x => x) (fun x => x) (fun x => x) (fun x => x)
         (fun x => x) (fun x => x) (fun x => x) (fun x => x).

(** ** Vocabulary of the statements *)

(** What is left to read: the characters not yet lexed, and the lookahead
    when it is not END.  Every [nextToken] on a lookahead that is not END
    makes it smaller, which bounds the depth of the descent. *)
Definition mu (p : ArithmeticParser) : nat :=
  List.length (data p) + (if token_t_eqb (type (token p)) T_END then 0 else 1).

(** The index of a FUNCTION token points into the function table. *)
Definition tok_ok (t : Token) : Prop :=
  type t = T_FUNC -> intValue t < List.length funcnames.

(** [code] runs on any stack without popping below the values it found
    and leaves one more value on it. *)
Definition pushes_one (code : list Token) : Prop :=
  forall (m : libm) (x : float) (nums : list float),
    exists v, eval_loop m x code nums = Some (v :: nums).

(** [code] consumes the value on top of the stack and leaves one in its
    place, without touching what is below. *)
Definition keeps_one (code : list Token) : Prop :=
  forall (m : libm) (x : float) (v : float) (nums : list float),
    exists v', eval_loop m x code (v :: nums) = Some (v' :: nums).

(** What one run of the lexer from the characters [d] does to the object:
    the program and the lookahead stay, the cursor does not move back and
    moves on when a token other than END comes out. *)
Definition lex_post (d : list ascii) (p : ArithmeticParser)
  (r : outcome Token * ArithmeticParser) : Prop :=
  rpn (snd r) = rpn p /\ token (snd r) = token p /\
  List.length (data (snd r)) <= List.length d /\
  fst r <> OutOfFuel /\
  forall t, fst r = Ok t ->
    tok_ok t /\ (type t <> T_END -> List.length (data (snd r)) < List.length d).

(** What a grammar function that returns has done: the lookahead is
    well formed, nothing was un-read, and the program grew by a piece of
    code of the given shape. *)
Definition expr_post (shape : list Token -> Prop)
  (p p' : ArithmeticParser) : Prop :=
  tok_ok (token p') /\ mu p' <= mu p /\
  exists code, rpn p' = rpn p ++ code /\ shape code.

(** The operators that take two operands. *)
Definition binary (ty : token_t) : Prop :=
  ty = T_PLUS \/ ty = T_MINUS \/ ty = T_MUL \/ ty = T_DIV \/ ty = T_POW.

(** The contract of the six mutually recursive grammar functions at one
    fuel level: when one of them returns, the program has grown by code that
    pushes one value ([EXPR] to [EXPR4]) or that turns the value on top into
    another one (the loops). *)
Section GrammarContract.

Variable uninit : memory.

Definition returns_with (shape : list Token -> Prop) (f : M unit) : Prop :=
  forall p p' a, tok_ok (token p) -> f p = (Ok a, p') -> expr_post shape p p'.

Definition grammar_ok (f : nat) : Prop :=
  returns_with pushes_one (EXPR uninit f) /\
  returns_with keeps_one (EXPR_while uninit f) /\
  returns_with pushes_one (EXPR2 uninit f) /\
  returns_with keeps_one (EXPR2_while uninit f) /\
  returns_with pushes_one (EXPR3 uninit f) /\
  returns_with pushes_one (EXPR4 uninit f).

End GrammarContract.

(** Termination of the descent: with fuel [6 * mu p + k] a grammar function
    does not stop for lack of fuel. *)
Section GrammarFuel.

Variable uninit : memory.

Definition halts {A : Type} (m : M A) (p : ArithmeticParser) : Prop :=
  fst (m p) <> OutOfFuel.

Definition needs (k f : nat) (m : M unit) : Prop :=
  forall p, tok_ok (token p) -> 6 * mu p + k <= f -> halts m p.

Definition grammar_halts (f : nat) : Prop :=
  needs 4 f (EXPR uninit f) /\
  needs 1 f (EXPR_while uninit f) /\
  needs 3 f (EXPR2 uninit f) /\
  needs 1 f (EXPR2_while uninit f) /\
  needs 2 f (EXPR3 uninit f) /\
  needs 1 f (EXPR4 uninit f).

End GrammarFuel.

(** [m'] does whatever [m] does when [m] does not stop for lack of fuel. *)
Definition refines {A : Type} (m m' : M A) : Prop :=
  forall p r p', m p = (r, p') -> r <> OutOfFuel -> m' p = (r, p').

(** ** A caller's view: sequences of calls on one object *)

Inductive call : Type :=
  | CallParse (uninit : memory) (s : string)
  | CallEvaluate (x : float).

Inductive reply : Type :=
  | ParseReply (b : outcome bool)
  | EvalReply (v : option float).

(** Each call runs on the object the call before it left. *)
Definition do_call (m : libm) (c : call) (p : ArithmeticParser)
  : reply * ArithmeticParser :=
  match c with
  | CallParse uninit s =>
      let (b, p') := parse uninit s p in (ParseReply b, p')
  | CallEvaluate x =>
      let (v, p') := evaluate_call m x p in (EvalReply v, p')
  end.

Fixpoint session (m : libm) (calls : list call) (p : ArithmeticParser)
  : list reply * ArithmeticParser :=
  match calls with
  | [] => ([], p)
  | c :: calls' =>
      let (r, p1) := do_call m c p in
      let (rs, p2) := session m calls' p1 in
      (r :: rs, p2)
  end.

(** ** Spellings of a name *)

Definition toupper (c : ascii) : ascii :=
  if islower c then ascii_of_nat (code c - 32) else c.

Definition lower_string (w : string) : string :=
  string_of_list_ascii (map tolower (list_ascii_of_string w)).

(** All the ways to write [name] with some letters in upper case. *)
Fixpoint case_variants (name : list ascii) : list (list ascii) :=
  match name with
  | [] => [[]]
  | c :: name' =>
      flat_map (fun w => [c :: w; toupper c :: w]) (case_variants name')
  end.

(** The two results of a call of [parse]: what it returns and the object
    it leaves. *)
Definition parse_result (uninit : memory) (s : string)
  (p : ArithmeticParser) : outcome bool := fst (parse uninit s p).

Definition parse_state (uninit : memory) (s : string)
  (p : ArithmeticParser) : ArithmeticParser := snd (parse uninit s p).

(** The lexer neither reads nor writes the lookahead. *)
Definition same_but_token (t : Token) (r r' : outcome Token * ArithmeticParser)
  : Prop :=
  r' = (fst r, set_token t (snd r)).

(** The object once [parse] has primed the lookahead on [s] (in storage
    that happens to be zero-filled). *)
Definition after_first_token (s : string) : ArithmeticParser :=
  snd (nextToken zeroed
         (mkParser (list_ascii_of_string s) (Tok T_END)
                   (v_reserve zeroed 80 v_empty) [])).

(** [w] is [name] itself, or [parse] rejects [w] applied to [x]. *)
Definition misspelling_rejected (uninit : memory)
  (p : ArithmeticParser) (name : string) (w : list ascii) : bool :=
  String.eqb (string_of_list_ascii w) name
  || match parse_result uninit (string_of_list_ascii w ++ "(x)") p with
     | Ok false => true
     | _ => false
     end.

Definition misspellings_rejected (uninit : memory)
  (p : ArithmeticParser) : bool :=
  forallb (fun name =>
             forallb (misspelling_rejected uninit p name)
                     (case_variants (list_ascii_of_string name)))
          funcnames.

(** The object once [EXPR3] has read a base, a '^' and an exponent of [s]:
    both operands are single tokens here. *)
Definition after_second_operand (s : string) : ArithmeticParser :=
  let q1 := snd (EXPR4 zeroed 1 (after_first_token s)) in
  snd (EXPR4 zeroed 1 (snd (nextToken zeroed q1))).

(** ** Vocabulary of the further properties *)

(** The value of a run of decimal digits, continued from [n]. *)
Definition decimal_from (n : Z) (ds : list ascii) : Z :=
  fold_left (fun n c => (n * 10 + digit_val c)%Z) ds n.

Definition decimal (ds : list ascii) : Z := decimal_from 0 ds.

(** [v] after [push_back] of each character of [cs] in turn. *)
Definition push_all (uninit : memory) (cs : list ascii)
  (v : char_vector) : char_vector :=
  fold_left (fun v c => v_push_back uninit c v) cs v.

(** The cursor rests on the terminator. *)
Definition at_end (p : ArithmeticParser) : Prop := peek (data p) = NUL.

(** [code] computes [v]: run on any stack it pushes [v] and nothing else. *)
Definition computes (m : libm) (x : float) (code : list Token) (v : float)
  : Prop :=
  forall nums, eval_loop m x code nums = Some (v :: nums).

(** The characters that the lexer can read past: blanks, the variable,
    digits and the decimal point, letters, and the delimiters. *)
Definition lexicon (c : ascii) : bool :=
  isspace c || isdigit c || isalpha c || is_char c "."
  || existsb (Ascii.eqb c) delims.

(** [d'] is what is left of [d] after some characters were read, all of
    them from the lexicon. *)
Definition is_suffix (d' d : list ascii) : Prop :=
  exists pre, d = pre ++ d' /\ Forall (fun c => lexicon c = true) pre.

(** An END lookahead was lexed at the terminator. *)
Definition lexed (p : ArithmeticParser) : Prop :=
  type (token p) = T_END -> at_end p.

(** A relation between the object before and after a call that returned
    holds across [m]. *)
Definition preserves {A : Type}
  (R : ArithmeticParser -> ArithmeticParser -> Prop) (m : M A) : Prop :=
  forall p a q, m p = (Ok a, q) -> R p q.

(** From [p] to [q] the cursor has only moved on, and an END lookahead
    still stands for the terminator. *)
Definition read_on (p q : ArithmeticParser) : Prop :=
  is_suffix (data q) (data p) /\ (lexed p -> lexed q).

(** ** Two runs side by side *)

(** Two tokens of the same kind that name the same function; their
    floating-point payloads may differ. *)
Definition tok_sim (t t' : Token) : Prop :=
  type t = type t' /\ intValue t = intValue t'.

(** Two calls end the same way, with related results and objects when they
    return. *)
Definition sim_out {A : Type} (VR : A -> A -> Prop)
  (St : ArithmeticParser -> ArithmeticParser -> Prop)
  (r r' : outcome A * ArithmeticParser) : Prop :=
  match fst r, fst r' with
  | Ok a, Ok a' => VR a a' /\ St (snd r) (snd r')
  | Throw _, Throw _ => True
  | OutOfFuel, OutOfFuel => True
  | _, _ => False
  end.

Definition simulates {A : Type} (VR : A -> A -> Prop)
  (St : ArithmeticParser -> ArithmeticParser -> Prop) (m m' : M A) : Prop :=
  forall p p', St p p' -> sim_out VR St (m p) (m' p').

(** The same characters to read, and programs of the same shape. *)
Definition same_input (p p' : ArithmeticParser) : Prop :=
  data p = data p' /\ Forall2 tok_sim (rpn p) (rpn p').

Definition same_shape (p p' : ArithmeticParser) : Prop :=
  same_input p p' /\ tok_sim (token p) (token p').

Definition any_unit (a a' : unit) : Prop := True.

(** The lexer on the same characters, with any two scratch vectors and any
    two contents of fresh storage: the same outcome, tokens of the same
    kind, and the same cursor. *)
Definition lex_sim (r r' : outcome Token * ArithmeticParser) : Prop :=
  match fst r, fst r' with
  | Ok t, Ok t' => tok_sim t t' /\ data (snd r) = data (snd r')
  | Throw _, Throw _ => True
  | _, _ => False
  end.

(** ** The variable in upper case *)

(** ['X'] written as ['x']. *)
Definition fold_x (c : ascii) : ascii := if is_char c "X" then "x"%char else c.

Definition fold_x_string (s : string) : string :=
  string_of_list_ascii (map fold_x (list_ascii_of_string s)).

(** The lexer on [d] and on [d] with every ['X'] written ['x'], from the
    same scratch vector: the same outcome, the same token, the same vector,
    and cursors that differ by the spelling only. *)
Definition lex_fold (r r' : outcome Token * ArithmeticParser) : Prop :=
  match fst r, fst r' with
  | Ok t, Ok t' =>
      t = t' /\ data (snd r') = map fold_x (data (snd r)) /\
      buf (snd r') = buf (snd r)
  | Throw _, Throw _ => True
  | _, _ => False
  end.

Definition same_up_to_x_input (p p' : ArithmeticParser) : Prop :=
  data p' = map fold_x (data p) /\ buf p' = buf p /\ rpn p' = rpn p.

Definition same_up_to_x (p p' : ArithmeticParser) : Prop :=
  same_up_to_x_input p p' /\ token p' = token p.

(** * Properties *)

(** ** The number model *)

Example round_half : round_dec 5 (-1) = 0.5%float.
Proof. vm_compute. reflexivity. Qed.

Example round_int_min : double_of_int (-2147483648) = (-2147483648)%float.
Proof. vm_compute. reflexivity. Qed.

Example atof_stops_at_letter :
  atof (list_ascii_of_string "0.5sin") = 0.5%float.
Proof. vm_compute. reflexivity. Qed.

(** ** The monad *)

Lemma bind_Ok {A B : Type} (m : M A) (f : A -> M B) p b p' :
  bind m f p = (Ok b, p') ->
  exists a p1, m p = (Ok a, p1) /\ f a p1 = (Ok b, p').
Proof.
  unfold bind. destruct (m p) as [[a | e | ] p1]; intros H.
  - exists a, p1. split; [reflexivity | exact H].
  - discriminate H.
  - discriminate H.
Qed.

Lemma bind_eq {A B : Type} (m : M A) (f : A -> M B) p a p1 :
  m p = (Ok a, p1) -> bind m f p = f a p1.
Proof. intros H. unfold bind. rewrite H. reflexivity. Qed.

(** ** The lexer *)

Lemma find_index_lt {A : Type} (eqb : A -> A -> bool) x l i :
  find_index eqb x l = Some i -> i < List.length l.
Proof.
  revert i. induction l as [| y l IH]; simpl; intros i H.
  - discriminate H.
  - destruct (eqb y x).
    + injection H as <-. lia.
    + destruct (find_index eqb x l) as [j |]; simpl in H; [| discriminate H].
      injection H as <-. specialize (IH j eq_refl). lia.
Qed.

Section LexerFacts.

Variable uninit : memory.

Lemma number_digits_length n d :
  List.length (snd (number_digits n d)) <= List.length d.
Proof.
  revert n. induction d as [| c d IH]; simpl; intros n.
  - lia.
  - destruct (isdigit c); simpl; [| lia].
    specialize (IH (wrap32 (n * 10 + Z.of_nat (code c) - 48))). lia.
Qed.

Lemma fraction_digits_length d b :
  List.length (fst (fraction_digits uninit d b)) <= List.length d.
Proof.
  revert b. induction d as [| c d IH]; simpl; intros b.
  - lia.
  - destruct (isdigit c); simpl; [| lia].
    specialize (IH (v_push_back uninit c b)). lia.
Qed.

Lemma name_letters_length d b :
  List.length (fst (name_letters uninit d b)) <= List.length d.
Proof.
  revert b. induction d as [| c d IH]; simpl; intros b.
  - lia.
  - destruct (isalpha c); simpl; [| lia].
    specialize (IH (v_push_back uninit c b)). lia.
Qed.

Lemma lex_post_intro d p r :
  rpn (snd r) = rpn p -> token (snd r) = token p ->
  List.length (data (snd r)) <= List.length d ->
  (match fst r with
   | Ok t => tok_ok t /\
             (type t <> T_END -> List.length (data (snd r)) < List.length d)
   | Throw _ => True
   | OutOfFuel => False
   end) ->
  lex_post d p r.
Proof.
  intros H1 H2 H3 H4. unfold lex_post.
  split; [exact H1 |]. split; [exact H2 |]. split; [exact H3 |].
  destruct (fst r) as [t | e |].
  - split; [discriminate |]. intros t' Ht. injection Ht as <-. exact H4.
  - split; [discriminate |]. intros t' Ht. discriminate Ht.
  - contradiction H4.
Qed.

Lemma tok_ok_not_FUNC t : type t <> T_FUNC -> tok_ok t.
Proof. intros H Hf. contradiction (H Hf). Qed.

Lemma TS_NUMBER_spec c n d p :
  lex_post (c :: d) p (TS_NUMBER uninit n d p).
Proof.
  unfold TS_NUMBER.
  pose proof (number_digits_length n d) as Hn.
  destruct (number_digits n d) as [n1 d1]; simpl in Hn.
  destruct (is_char (peek d1) ".").
  - assert (Ht : List.length (tl d1) <= List.length d)
      by (destruct d1; simpl in *; lia).
    destruct (negb (isdigit (peek (tl d1)))).
    + apply lex_post_intro; simpl; auto; lia.
    + pose proof (fraction_digits_length (tl d1)
        (v_push_back uninit "." (v_push_back uninit "0" (v_clear (buf p)))))
        as Hf.
      destruct (fraction_digits uninit (tl d1) _) as [d3 b']; simpl in Hf.
      apply lex_post_intro; simpl; auto; try lia.
      split; [apply tok_ok_not_FUNC; discriminate | lia].
  - apply lex_post_intro; simpl; auto; try lia.
    split; [apply tok_ok_not_FUNC; discriminate | lia].
Qed.

Lemma TS_FUNCNAME_spec c d p :
  isalpha c = true ->
  lex_post (c :: d) p (TS_FUNCNAME uninit (c :: d) p).
Proof.
  intros Hc. unfold TS_FUNCNAME. simpl name_letters. rewrite Hc.
  pose proof (name_letters_length d (v_push_back uninit c (v_clear (buf p))))
    as Hn.
  destruct (name_letters uninit d _) as [d1 b]; simpl in Hn.
  destruct (find_index String.eqb _ funcnames) as [index |] eqn:Hfind.
  - apply lex_post_intro; simpl; auto; try lia.
    split; [| lia]. intros _. exact (find_index_lt _ _ _ Hfind).
  - apply lex_post_intro; simpl; auto; lia.
Qed.

Lemma TS_DELIM_spec c d p :
  lex_post (c :: d) p (TS_DELIM (c :: d) p).
Proof.
  unfold TS_DELIM. simpl peek. simpl tl.
  destruct (find_index Ascii.eqb c delims) as [index |] eqn:Hfind.
  - pose proof (find_index_lt _ _ _ Hfind) as Hlt.
    apply lex_post_intro; simpl; auto; try lia.
    split; [| lia]. apply tok_ok_not_FUNC. simpl in Hlt.
    do 7 (destruct index as [| index]; [discriminate |]). lia.
  - apply lex_post_intro; simpl; auto; lia.
Qed.

Lemma TS_INITIAL_spec d p : lex_post d p (TS_INITIAL uninit d p).
Proof.
  induction d as [| c d IH].
  - apply lex_post_intro; simpl; auto.
    split; [apply tok_ok_not_FUNC; discriminate |].
    intros H; contradiction H; reflexivity.
  - simpl.
    destruct (isspace c).
    { destruct IH as (H1 & H2 & H3 & H4 & H5).
      unfold lex_post. repeat (split; [assumption || (simpl; lia) |]).
      intros t Ht. destruct (H5 t Ht) as [H6 H7].
      split; [exact H6 |]. intros Hne. specialize (H7 Hne). simpl. lia. }
    destruct (is_char (tolower c) "x").
    { apply lex_post_intro; simpl; auto.
      split; [apply tok_ok_not_FUNC; discriminate | lia]. }
    destruct (isdigit c); [apply TS_NUMBER_spec |].
    destruct (isalpha c) eqn:Hal; [apply TS_FUNCNAME_spec; exact Hal |].
    destruct (is_char c NUL).
    { apply lex_post_intro; simpl; auto.
      split; [apply tok_ok_not_FUNC; discriminate |].
      intros H; contradiction H; reflexivity. }
    apply TS_DELIM_spec.
Qed.

(** [nextToken] never changes the program, never runs out of fuel, installs
    a well-formed lookahead and shrinks what is left to read. *)
Lemma nextToken_spec p :
  match nextToken uninit p with
  | (Ok _, p') =>
      rpn p' = rpn p /\ tok_ok (token p') /\
      mu p' <= List.length (data p)
  | (Throw _, _) => True
  | (OutOfFuel, _) => False
  end.
Proof.
  unfold nextToken, bind, getToken.
  pose proof (TS_INITIAL_spec (data p) p) as (H1 & H2 & H3 & H4 & H5).
  destruct (TS_INITIAL uninit (data p) p) as [[t | e |] p1]; simpl in *.
  - destruct (H5 t eq_refl) as [H6 H7].
    split; [exact H1 |]. split; [exact H6 |].
    unfold mu; simpl. destruct (type t); simpl;
      try (assert (Hlt : List.length (data p1) < List.length (data p))
             by (apply H7; discriminate); lia); lia.
  - exact I.
  - apply H4. reflexivity.
Qed.

End LexerFacts.

(** ** Shapes of postfix code *)

Lemma eval_loop_app m x a b nums :
  eval_loop m x (a ++ b) nums =
  match eval_loop m x a nums with
  | Some nums' => eval_loop m x b nums'
  | None => None
  end.
Proof.
  revert nums. induction a as [| t a IH]; simpl; intros nums.
  - reflexivity.
  - destruct (eval_step m x t nums) as [nums' |]; [apply IH | reflexivity].
Qed.

Lemma pushes_one_NUMBER t : type t = T_NUMBER -> pushes_one [t].
Proof.
  intros Ht m x nums. exists (realValue t).
  simpl. unfold eval_step. rewrite Ht. reflexivity.
Qed.

Lemma pushes_one_X : pushes_one [Tok T_X].
Proof. intros m x nums. exists x. reflexivity. Qed.

Lemma keeps_one_nil : keeps_one [].
Proof. intros m x v nums. exists v. reflexivity. Qed.

Lemma keeps_one_NEGATE : keeps_one [Tok T_NEGATE].
Proof. intros m x v nums. exists (- v)%float. reflexivity. Qed.

Lemma keeps_one_FUNC i :
  i < List.length funcnames -> keeps_one [TokInt T_FUNC i].
Proof.
  intros Hi m x v nums. simpl in Hi.
  destruct (nth_error (functions m) i) as [f |] eqn:Hf.
  - exists (f v). simpl. unfold eval_step, apply_op. simpl. rewrite Hf.
    reflexivity.
  - apply nth_error_None in Hf. simpl in Hf. lia.
Qed.

Lemma keeps_one_binary a ty :
  pushes_one a -> binary ty -> keeps_one (a ++ [Tok ty]).
Proof.
  intros Ha Hty m x v nums. rewrite eval_loop_app.
  destruct (Ha m x (v :: nums)) as [w ->].
  destruct Hty as [-> | [-> | [-> | [-> | ->]]]]; eexists; reflexivity.
Qed.

Lemma pushes_keeps a b : pushes_one a -> keeps_one b -> pushes_one (a ++ b).
Proof.
  intros Ha Hb m x nums. rewrite eval_loop_app.
  destruct (Ha m x nums) as [v ->]. apply Hb.
Qed.

Lemma keeps_keeps a b : keeps_one a -> keeps_one b -> keeps_one (a ++ b).
Proof.
  intros Ha Hb m x v nums. rewrite eval_loop_app.
  destruct (Ha m x v nums) as [w ->]. apply Hb.
Qed.

(** ** The grammar functions *)

Lemma token_t_eqb_eq a b : token_t_eqb a b = true <-> a = b.
Proof. destruct a, b; simpl; split; intros H; congruence. Qed.

Lemma get_token_Ok p a p1 :
  get_token p = (Ok a, p1) -> a = token p /\ p1 = p.
Proof. unfold get_token. intros H. injection H as <- <-. auto. Qed.

Lemma rpn_push_back_Ok t p a p1 :
  rpn_push_back t p = (Ok a, p1) -> p1 = set_rpn (rpn p ++ [t]) p.
Proof. unfold rpn_push_back. intros H. injection H as _ <-. reflexivity. Qed.

Lemma ret_Ok {A : Type} (x a : A) p p1 :
  ret x p = (Ok a, p1) -> a = x /\ p1 = p.
Proof. unfold ret. intros H. injection H as <- <-. auto. Qed.

Lemma expectToken_Ok t p a p1 :
  expectToken t p = (Ok a, p1) -> p1 = p /\ type (token p) = t.
Proof.
  unfold expectToken, bind, get_token.
  destruct (token_t_eqb (type (token p)) t) eqn:E; unfold ret, throw;
    intros H; [| discriminate H].
  injection H as _ <-. split; [reflexivity |]. apply token_t_eqb_eq, E.
Qed.

Lemma mu_set_rpn r p : mu (set_rpn r p) = mu p.
Proof. reflexivity. Qed.

Section GrammarFacts.

Variable uninit : memory.

Lemma nextToken_Ok p a p1 :
  nextToken uninit p = (Ok a, p1) ->
  rpn p1 = rpn p /\ tok_ok (token p1) /\ mu p1 <= List.length (data p).
Proof.
  intros H. pose proof (nextToken_spec uninit p) as Hs.
  rewrite H in Hs. exact Hs.
Qed.


Lemma nextToken_post p a p1 :
  nextToken uninit p = (Ok a, p1) -> expr_post (eq []) p p1.
Proof.
  intros H. apply nextToken_Ok in H. destruct H as (R & T & Mu).
  split; [exact T |]. split; [unfold mu at 2; lia |].
  exists []. rewrite app_nil_r. auto.
Qed.

Lemma nextToken_lt p a p1 :
  nextToken uninit p = (Ok a, p1) -> type (token p) <> T_END -> mu p1 < mu p.
Proof.
  intros H Hne. apply nextToken_Ok in H. destruct H as (R & T & Mu).
  unfold mu at 2. destruct (type (token p)); simpl; try lia.
  contradiction Hne; reflexivity.
Qed.

Lemma push_post t p a p1 :
  tok_ok (token p) ->
  rpn_push_back t p = (Ok a, p1) -> expr_post (eq [t]) p p1.
Proof.
  intros T H. apply rpn_push_back_Ok in H. subst p1.
  split; [exact T |]. split; [rewrite mu_set_rpn; lia |].
  exists [t]. auto.
Qed.


Lemma expr_post_refl (S : list Token -> Prop) p :
  tok_ok (token p) -> S [] -> expr_post S p p.
Proof.
  intros T H. split; [exact T |]. split; [lia |].
  exists []. rewrite app_nil_r. auto.
Qed.

Lemma expect_post t p a p1 :
  tok_ok (token p) ->
  expectToken t p = (Ok a, p1) -> expr_post (eq []) p p1.
Proof.
  intros T H. apply expectToken_Ok in H. destruct H as [-> _].
  apply expr_post_refl; auto.
Qed.

(** Walk down a sequence of calls that returned, collecting what each
    call did to the object. *)
Ltac post_of Hq T :=
  first
    [ apply nextToken_post in Hq
    | eapply expect_post in Hq; [| exact T]
    | eapply push_post in Hq; [| exact T]
    | match goal with
      | IH : returns_with _ _ |- _ => eapply IH in Hq; [| exact T]
      end ].

Ltac walk H T :=
  lazymatch type of H with
  | bind _ _ _ = (Ok _, _) =>
      let a := fresh "a" in
      let q := fresh "q" in
      let Hq := fresh "Hq" in
      apply bind_Ok in H; destruct H as (a & q & Hq & H);
      post_of Hq T;
      let T' := fresh "T" in
      pose proof (proj1 Hq) as T';
      walk H T'
  | _ => post_of H T
  end.

Ltac open_posts :=
  repeat match goal with
         | H : expr_post _ _ _ |- _ =>
             let c := fresh "c" in
             destruct H as (? & ? & c & ? & ?)
         end;
  repeat match goal with
         | H : [] = _ |- _ => destruct H
         | H : [?t] = ?c |- _ => is_var c; destruct H
         end.

Ltac close_post :=
  split; [assumption |];
  split; [lia |];
  repeat match goal with
         | R : rpn ?q = _, R' : rpn _ = ?rhs |- _ =>
             lazymatch rhs with context [rpn q] => rewrite R in R' end
         end;
  match goal with
  | R : rpn ?p' = _ |- exists code, rpn ?p' = _ /\ _ =>
      rewrite ?app_nil_r, <- ?app_assoc in R;
      eexists; split; [exact R |]
  end.


Ltac read_token H T :=
  let tok := fresh "tok" in
  let q := fresh "q" in
  let Hq := fresh "Hq" in
  apply bind_Ok in H; destruct H as (tok & q & Hq & H);
  apply get_token_Ok in Hq; destruct Hq as [-> ->].

Ltac binary_tac := unfold binary; tauto.

Lemma grammar_ok_all f : grammar_ok uninit f.
Proof.
  induction f as [| f (IH1 & IHw1 & IH2 & IHw2 & IH3 & IH4)].
  - unfold grammar_ok. repeat (split; [intros p p' a _ H; discriminate H |]).
    intros p p' a _ H; discriminate H.
  - split; [| split; [| split; [| split; [| split]]]].
    + (* EXPR *)
      intros p p' a T H. simpl in H. walk H T. open_posts. close_post.
      apply pushes_keeps; assumption.
    + (* the loop of EXPR *)
      intros p p' a T H. simpl in H. read_token H T.
      destruct (type (token p)) eqn:Ety; simpl in H;
        try (apply ret_Ok in H; destruct H as [_ ->];
             apply expr_post_refl; [exact T | apply keeps_one_nil]);
        walk H T; open_posts; close_post;
        rewrite app_assoc; apply keeps_keeps; try assumption;
        (apply keeps_one_binary; [assumption | binary_tac]).
    + (* EXPR2 *)
      intros p p' a T H. simpl in H. walk H T. open_posts. close_post.
      apply pushes_keeps; assumption.
    + (* the loop of EXPR2 *)
      intros p p' a T H. simpl in H. read_token H T.
      destruct (type (token p)) eqn:Ety; simpl in H;
        try (apply ret_Ok in H; destruct H as [_ ->];
             apply expr_post_refl; [exact T | apply keeps_one_nil]);
        walk H T; open_posts; close_post;
        rewrite app_assoc; apply keeps_keeps; try assumption;
        (apply keeps_one_binary; [assumption | binary_tac]).
    + (* EXPR3 *)
      intros p p' a T H. simpl in H.
      apply bind_Ok in H. destruct H as (a1 & q1 & H1 & H).
      eapply IH4 in H1; [| exact T]. pose proof (proj1 H1) as T1.
      read_token H T1.
      destruct (type (token q1)) eqn:Ety; simpl in H;
        try (apply ret_Ok in H; destruct H as [_ ->]; exact H1).
      walk H T1. open_posts. close_post.
      apply pushes_keeps; [assumption |].
      apply keeps_one_binary; [assumption | binary_tac].
    + (* EXPR4 *)
      intros p p' a T H. simpl in H. read_token H T.
      destruct (type (token p)) eqn:Ety; simpl in H;
        try discriminate H.
      * (* '-' EXPR4 *)
        walk H T. open_posts. close_post.
        apply pushes_keeps; [assumption | apply keeps_one_NEGATE].
      * (* '(' EXPR ')' *)
        walk H T. open_posts. close_post. assumption.
      * (* NUMBER ... *)
        apply bind_Ok in H. destruct H as (a1 & q1 & H1 & H).
        eapply push_post in H1; [| exact T]. pose proof (proj1 H1) as T1.
        apply bind_Ok in H. destruct H as (a2 & q2 & H2 & H).
        apply nextToken_post in H2. pose proof (proj1 H2) as T2.
        read_token H T2.
        assert (Hnum : pushes_one [token p])
          by (apply pushes_one_NUMBER; exact Ety).
        destruct (type (token q2)) eqn:Ety2; simpl in H;
          try (apply ret_Ok in H; destruct H as [_ ->];
               open_posts; close_post; exact Hnum).
        -- walk H T2. open_posts. close_post.
           apply pushes_keeps; [exact Hnum |].
           apply keeps_one_binary; [assumption | binary_tac].
        -- walk H T2. open_posts. close_post.
           apply pushes_keeps; [exact Hnum |].
           apply keeps_one_binary; [apply pushes_one_X | binary_tac].
      * (* x *)
        walk H T. open_posts. close_post. apply pushes_one_X.
      * (* FUNCNAME '(' EXPR ')' *)
        walk H T. open_posts. close_post.
        apply pushes_keeps; [assumption |].
        apply keeps_one_FUNC. apply T. exact Ety.
Qed.



(** ** Termination of the descent *)

Lemma bind_halts {A B : Type} (m : M A) (k : A -> M B) p :
  halts m p ->
  (forall a q, m p = (Ok a, q) -> halts (k a) q) ->
  halts (bind m k) p.
Proof.
  unfold halts, bind. intros Hm Hk.
  destruct (m p) as [[a | e |] q]; simpl in *.
  - apply Hk. reflexivity.
  - discriminate.
  - contradiction Hm; reflexivity.
Qed.

Lemma get_token_halts p : halts get_token p.
Proof. discriminate. Qed.

Lemma rpn_push_back_halts t p : halts (rpn_push_back t) p.
Proof. discriminate. Qed.

Lemma ret_halts {A : Type} (a : A) p : halts (ret a) p.
Proof. discriminate. Qed.

Lemma throw_halts {A : Type} e p : halts (@throw A e) p.
Proof. discriminate. Qed.

Lemma expectToken_halts t p : halts (expectToken t) p.
Proof.
  unfold expectToken. apply bind_halts; [apply get_token_halts |].
  intros a q _. destruct (token_t_eqb (type a) t);
    [apply ret_halts | apply throw_halts].
Qed.

Lemma nextToken_halts p : halts (nextToken uninit) p.
Proof.
  unfold halts. pose proof (nextToken_spec uninit p) as H.
  destruct (nextToken uninit p) as [[a | e |] q]; simpl;
    [discriminate | discriminate | contradiction H].
Qed.

(** Facts about the state reached by a call that returned. *)
Ltac facts_of Hq :=
  first
    [ apply get_token_Ok in Hq; destruct Hq as [-> ->]
    | apply expectToken_Ok in Hq; destruct Hq as [-> ?]
    | apply rpn_push_back_Ok in Hq; subst;
      simpl token in *; rewrite ?mu_set_rpn in *
    | let L := fresh "L" in
      pose proof (@nextToken_lt _ _ _ Hq) as L;
      cbn [token set_rpn] in L; rewrite ?mu_set_rpn in L;
      try (match type of L with
           | ?P -> _ =>
               let N := fresh "N" in
               assert (N : P) by congruence; specialize (L N)
           end);
      apply nextToken_post in Hq; destruct Hq as (? & ? & _);
      rewrite ?mu_set_rpn in *
    | match goal with
      | A : returns_with _ _ |- _ =>
          eapply A in Hq; [destruct Hq as (? & ? & _) | assumption]
      end ].

Ltac halt_prim :=
  first
    [ apply get_token_halts | apply expectToken_halts
    | apply rpn_push_back_halts | apply nextToken_halts
    | apply ret_halts | apply throw_halts
    | match goal with
      | IH : needs _ _ _ |- _ =>
          apply IH; [simpl; assumption | rewrite ?mu_set_rpn; lia]
      end ].

Ltac halt_walk :=
  lazymatch goal with
  | |- halts (bind _ _) _ =>
      apply bind_halts;
      [ halt_prim
      | let a := fresh "a" in
        let q := fresh "q" in
        let Hq := fresh "Hq" in
        intros a q Hq; facts_of Hq; halt_walk ]
  | |- halts (if _ then _ else _) ?q =>
      let E := fresh "Ety" in
      destruct (type (token q)) eqn:E; simpl; halt_walk
  | |- _ => halt_prim
  end.

Lemma grammar_halts_all f : grammar_halts uninit f.
Proof.
  induction f as [| f (IH1 & IHw1 & IH2 & IHw2 & IH3 & IH4)].
  - unfold grammar_halts, needs.
    repeat (split; [intros p _ H; lia |]). intros p _ H; lia.
  - destruct (grammar_ok_all f) as (A1 & Aw1 & A2 & Aw2 & A3 & A4).
    split; [| split; [| split; [| split; [| split]]]];
      intros p T Hf; simpl.
    all: halt_walk.
Qed.

(** ** Fuel: more of it changes nothing, and [parse] has enough *)

Lemma refines_refl {A : Type} (m : M A) : refines m m.
Proof. intros p r p' H _. exact H. Qed.

Lemma refines_bind {A B : Type} (m m' : M A) (k k' : A -> M B) :
  refines m m' -> (forall a, refines (k a) (k' a)) ->
  refines (bind m k) (bind m' k').
Proof.
  intros Hm Hk p r p' H Hr. unfold bind in *.
  destruct (m p) as [[a | e |] q] eqn:E.
  - rewrite (Hm _ _ _ E) by discriminate. apply Hk; assumption.
  - rewrite (Hm _ _ _ E) by discriminate. exact H.
  - injection H as <- <-. contradiction Hr; reflexivity.
Qed.

Ltac refines_tac :=
  repeat first
    [ assumption
    | apply refines_refl
    | apply refines_bind; [| intros ?]
    | match goal with
      | |- refines (if ?c then _ else _) _ => destruct c
      end ].

(** More fuel does not change what a grammar function does. *)
Lemma grammar_fuel_mono f f' :
  f <= f' ->
  refines (EXPR uninit f) (EXPR uninit f') /\
  refines (EXPR_while uninit f) (EXPR_while uninit f') /\
  refines (EXPR2 uninit f) (EXPR2 uninit f') /\
  refines (EXPR2_while uninit f) (EXPR2_while uninit f') /\
  refines (EXPR3 uninit f) (EXPR3 uninit f') /\
  refines (EXPR4 uninit f) (EXPR4 uninit f').
Proof.
  revert f'. induction f as [| f IH]; intros f' Hle.
  - repeat split; intros p r p' H Hr; injection H as <- _;
      contradiction Hr; reflexivity.
  - destruct f' as [| f']; [lia |].
    destruct (IH f') as (IH1 & IHw1 & IH2 & IHw2 & IH3 & IH4); [lia |].
    repeat split; simpl; refines_tac.
Qed.

Lemma length_list_ascii_of_string s :
  List.length (list_ascii_of_string s) = String.length s.
Proof. induction s as [| c s IH]; simpl; [reflexivity | rewrite IH; reflexivity]. Qed.

Lemma parse_body_halts s p :
  data p = list_ascii_of_string s ->
  halts (parse_body uninit (parse_fuel s)) p.
Proof.
  intros Hd. unfold parse_body.
  apply bind_halts; [apply nextToken_halts |]. intros a q Hq.
  apply nextToken_Ok in Hq. destruct Hq as (_ & T & Hmu).
  rewrite Hd, length_list_ascii_of_string in Hmu.
  apply bind_halts.
  - eapply grammar_halts_all; [exact T |].
    unfold parse_fuel. lia.
  - intros a' q' _. apply expectToken_halts.
Qed.

(** [parse] always returns: the fuel it starts with is never used up. *)
Lemma parse_fuel_enough s p :
  exists b p', parse uninit s p = (Ok b, p').
Proof.
  unfold parse, parse_with.
  match goal with
  | |- context [parse_body _ _ ?p0] =>
      pose proof (@parse_body_halts s p0 eq_refl) as H;
      unfold halts in H;
      destruct (parse_body uninit (parse_fuel s) p0) as [[a | e |] q]
  end.
  - eauto.
  - eauto.
  - contradiction H; reflexivity.
Qed.

(** ... and more fuel would give the same answer. *)
Lemma parse_with_more_fuel s p f :
  parse_fuel s <= f -> parse_with uninit f s p = parse uninit s p.
Proof.
  intros Hle. destruct (parse_fuel_enough s p) as (b & p' & Hp).
  rewrite Hp. unfold parse, parse_with in *.
  match goal with
  | |- context [parse_body _ _ ?p0] =>
      destruct (parse_body uninit (parse_fuel s) p0) as [[a | e |] q] eqn:E;
      [ | | discriminate Hp];
      assert (R : refines (parse_body uninit (parse_fuel s))
                          (parse_body uninit f))
        by (unfold parse_body; apply refines_bind; [apply refines_refl |];
            intros _; apply refines_bind;
            [apply (@grammar_fuel_mono _ _ Hle) | intros _; apply refines_refl]);
      rewrite (R _ _ _ E) by discriminate; exact Hp
  end.
Qed.


End GrammarFacts.

(** ** What [parse] leaves behind *)

Lemma parse_true_pushes_one uninit s p p' :
  parse uninit s p = (Ok true, p') -> pushes_one (rpn p').
Proof.
  unfold parse, parse_with.
  match goal with
  | |- context [parse_body _ _ ?p0] =>
      destruct (parse_body uninit (parse_fuel s) p0) as [[a | e |] q] eqn:E
  end; intros H; try discriminate H.
  injection H as <-. unfold parse_body in E.
  apply bind_Ok in E. destruct E as (a1 & q1 & H1 & E).
  apply bind_Ok in E. destruct E as (a2 & q2 & H2 & E).
  apply nextToken_Ok in H1. destruct H1 as (R1 & T1 & _).
  eapply grammar_ok_all in H2; [| exact T1].
  destruct H2 as (_ & _ & code & R2 & Hc).
  apply expectToken_Ok in E. destruct E as [-> _].
  rewrite R2, R1. exact Hc.
Qed.

Lemma parse_false_empty uninit s p p' :
  parse uninit s p = (Ok false, p') -> rpn p' = [].
Proof.
  unfold parse, parse_with.
  match goal with
  | |- context [parse_body _ _ ?p0] =>
      destruct (parse_body uninit (parse_fuel s) p0) as [[a | e |] q]
  end; intros H; try discriminate H.
  injection H as <-. reflexivity.
Qed.

Lemma evaluate_empty m p x : rpn p = [] -> evaluate m p x = Some zero.
Proof. intros H. unfold evaluate. rewrite H. reflexivity. Qed.

(** ** [evaluate] run on the object *)

Lemma skipn_nth_error {A : Type} (l : list A) :
  forall i t, nth_error l i = Some t -> skipn i l = t :: skipn (S i) l.
Proof.
  induction l as [| a l IH]; intros [| i] t H; simpl in H; try discriminate H.
  - injection H as <-. reflexivity.
  - apply IH in H. exact H.
Qed.

(** The loop hands the object on untouched, whatever it computes. *)
Lemma evaluate_for_object m x p :
  forall count i nums, snd (evaluate_for m x i count nums p) = p.
Proof.
  induction count as [| count IH]; intros i nums; simpl.
  - reflexivity.
  - unfold member_bind at 1, rpn_at.
    destruct (nth_error (rpn p) i) as [t |]; [| reflexivity].
    unfold member_bind, member_lift.
    destruct (eval_step m x t nums) as [nums' |]; [| reflexivity].
    apply IH.
Qed.

(** Reading [rpn[i]] for [i] from [i] on is running down the list. *)
Lemma evaluate_for_loop m x p :
  forall count i nums,
    i + count <= List.length (rpn p) ->
    fst (evaluate_for m x i count nums p)
    = eval_loop m x (firstn count (skipn i (rpn p))) nums.
Proof.
  induction count as [| count IH]; intros i nums H; simpl.
  - reflexivity.
  - unfold member_bind at 1, rpn_at.
    destruct (nth_error (rpn p) i) as [t |] eqn:E.
    + rewrite (skipn_nth_error _ _ E). simpl.
      unfold member_bind, member_lift.
      destruct (eval_step m x t nums) as [nums' |]; [| reflexivity].
      apply IH. lia.
    + apply nth_error_None in E. lia.
Qed.

Lemma evaluate_call_spec m x p : evaluate_call m x p = (evaluate m p x, p).
Proof.
  unfold evaluate_call, evaluate, member_bind at 1, rpn_size.
  destruct (List.length (rpn p) =? 0) eqn:E; [reflexivity |].
  unfold member_bind, member_lift.
  pose proof (evaluate_for_object m x p (List.length (rpn p)) 0 []) as Ho.
  pose proof (@evaluate_for_loop m x p (List.length (rpn p)) 0 []
                (Nat.le_refl _)) as Hl.
  simpl skipn in Hl. rewrite firstn_all in Hl.
  destruct (evaluate_for m x 0 (List.length (rpn p)) [] p) as [r q].
  simpl in Ho, Hl. subst q. rewrite <- Hl.
  destruct r as [nums |]; reflexivity.
Qed.

Lemma session_evaluate m p :
  forall xs,
    session m (map CallEvaluate xs) p
    = (map (fun x => EvalReply (evaluate m p x)) xs, p).
Proof.
  induction xs as [| x xs IH]; simpl.
  - reflexivity.
  - rewrite evaluate_call_spec, IH. reflexivity.
Qed.

(** C1.  Whenever [parse] returns true, the compiled postfix program is
    stack-balanced: run at any [x] (and with any <math.h>) it never pops an
    empty stack, it ends with exactly one value on the stack, and that value
    is what [evaluate] returns. *)
Theorem parse_stack_balanced uninit s p p' :
  parse uninit s p = (Ok true, p') ->
  forall (m : libm) (x : float),
    exists v, eval_loop m x (rpn p') [] = Some [v] /\
              evaluate m p' x = Some v.
Proof.
  intros H m x. apply parse_true_pushes_one in H.
  destruct (H m x []) as [v Hv]. exists v. split; [exact Hv |].
  unfold evaluate. rewrite Hv.
  destruct (rpn p') as [| t code] eqn:E.
  - discriminate Hv.
  - reflexivity.
Qed.

Lemma parse_stack_balanced_witness :
  exists v,
    eval_loop square_libm 2 (rpn (parse_state zeroed "3x" new_parser)) []
      = Some [v] /\
    evaluate square_libm (parse_state zeroed "3x" new_parser) 2 = Some v.
Proof.
  apply (@parse_stack_balanced zeroed "3x" new_parser
           (parse_state zeroed "3x" new_parser)).
  vm_compute. reflexivity.
Defined.

Lemma session_without_success m calls :
  forall p replies p',
    rpn p = [] ->
    session m calls p = (replies, p') ->
    ~ In (ParseReply (Ok true)) replies ->
    rpn p' = [] /\
    forall v, In (EvalReply v) replies -> v = Some zero.
Proof.
  induction calls as [| c calls IH]; simpl; intros p replies p' Hp H Hn.
  - injection H as <- <-. split; [exact Hp |]. intros v [].
  - destruct (do_call m c p) as [r p1] eqn:Ec.
    destruct (session m calls p1) as [rs p2] eqn:Es.
    injection H as <- <-.
    assert (Hp1 : rpn p1 = []).
    { destruct c as [uninit s | x]; simpl in Ec.
      - destruct (parse uninit s p) as [b q] eqn:Eb.
        injection Ec as <- <-.
        destruct (parse_fuel_enough uninit s p) as (b' & q' & Hb).
        rewrite Eb in Hb. injection Hb as -> ->.
        destruct b'.
        + contradiction Hn. left. reflexivity.
        + eapply parse_false_empty; exact Eb.
      - rewrite evaluate_call_spec in Ec. injection Ec as _ <-. exact Hp. }
    destruct (IH p1 rs p2 Hp1 Es) as [Hp2 Hv].
    { intros Hin. apply Hn. right. exact Hin. }
    split; [exact Hp2 |].
    intros v [Hr | Hin]; [| apply Hv; exact Hin].
    destruct c as [uninit s | x]; simpl in Ec.
    + destruct (parse uninit s p) as [b q]. injection Ec as <- _.
      discriminate Hr.
    + rewrite evaluate_call_spec in Ec.
      injection Ec as <- _. injection Hr as <-.
      apply evaluate_empty. exact Hp.
Qed.

(** C2.  When [parse] returns false the program is left empty and every
    later [evaluate] returns 0.0; [evaluate] also returns 0.0 on a new
    object, and after any sequence of calls in which no [parse] returned
    true. *)
Theorem parse_failure_leaves_empty :
  (forall uninit s p p',
     parse uninit s p = (Ok false, p') ->
     rpn p' = [] /\ forall m x, evaluate m p' x = Some zero) /\
  (forall m x, evaluate m new_parser x = Some zero) /\
  (forall m calls replies p',
     session m calls new_parser = (replies, p') ->
     ~ In (ParseReply (Ok true)) replies ->
     forall x, evaluate m p' x = Some zero).
Proof.
  split; [| split].
  - intros uninit s p p' H. apply parse_false_empty in H.
    split; [exact H |]. intros m x. apply evaluate_empty. exact H.
  - intros m x. reflexivity.
  - intros m calls replies p' H Hn x. apply evaluate_empty.
    eapply session_without_success; [| exact H | exact Hn]. reflexivity.
Qed.

Lemma parse_failure_leaves_empty_witness :
  (rpn (parse_state zeroed "2+" new_parser) = [] /\
   forall m x, evaluate m (parse_state zeroed "2+" new_parser) x = Some zero) /\
  (forall x, evaluate square_libm
     (snd (session square_libm
        [CallParse zeroed "3++4"; CallEvaluate 1; CallParse zeroed "foo(x)"]
        new_parser)) x = Some zero).
Proof.
  split.
  - apply (proj1 parse_failure_leaves_empty zeroed "2+"%string new_parser).
    vm_compute. reflexivity.
  - apply (proj2 (proj2 parse_failure_leaves_empty) square_libm
             [CallParse zeroed "3++4"; CallEvaluate 1;
              CallParse zeroed "foo(x)"]
             (fst (session square_libm
                [CallParse zeroed "3++4"; CallEvaluate 1;
                 CallParse zeroed "foo(x)"] new_parser))).
    + vm_compute. reflexivity.
    + vm_compute. intros [H | [H | [H | []]]]; discriminate H.
Defined.

(** C7.  [evaluate] leaves the object as it found it.  Run as the member
    function it is, reading [rpn.size()] and each [rpn[i]] from the object
    turn by turn, a call hands back the very object it was given, and what it
    returns is read off the compiled program and [x] alone; every turn of its
    loop hands the object on untouched.  So any sequence of calls of
    [evaluate] leaves the object unchanged and answers each call as a single
    call would; [evaluate(x)] called any number of times answers the same
    each time; and after a [parse] that returned true that answer is a
    number. *)
Theorem evaluate_leaves_object m p :
  (forall x, evaluate_call m x p = (evaluate m p x, p)) /\
  (forall x i count nums, snd (evaluate_for m x i count nums p) = p) /\
  (forall d t b x,
     fst (evaluate_call m x (mkParser d t b (rpn p)))
     = fst (evaluate_call m x p)) /\
  (forall xs,
     session m (map CallEvaluate xs) p
     = (map (fun x => EvalReply (fst (evaluate_call m x p))) xs, p)) /\
  (forall x n,
     session m (repeat (CallEvaluate x) n) p
     = (repeat (EvalReply (fst (evaluate_call m x p))) n, p)) /\
  (forall uninit s q,
     parse uninit s q = (Ok true, p) ->
     forall x n, exists v,
       session m (repeat (CallEvaluate x) n) p
       = (repeat (EvalReply (Some v)) n, p)).
Proof.
  assert (Hrep : forall x n,
            session m (repeat (CallEvaluate x) n) p
            = (repeat (EvalReply (evaluate m p x)) n, p)).
  { intros x n. induction n as [| n IH]; simpl.
    - reflexivity.
    - rewrite evaluate_call_spec, IH. reflexivity. }
  split; [| split; [| split; [| split; [| split]]]].
  - intros x. apply evaluate_call_spec.
  - intros x i count nums. apply evaluate_for_object.
  - intros d t b x. rewrite !evaluate_call_spec. reflexivity.
  - intros xs. rewrite session_evaluate. f_equal.
    apply map_ext. intros x. rewrite evaluate_call_spec. reflexivity.
  - intros x n. rewrite Hrep, evaluate_call_spec. reflexivity.
  - intros uninit s q H x n.
    apply parse_true_pushes_one in H.
    destruct (H m x []) as [v Hv]. exists v.
    rewrite Hrep. unfold evaluate. rewrite Hv.
    destruct (rpn p) as [| t code]; [discriminate Hv | reflexivity].
Qed.

Lemma evaluate_leaves_object_witness :
  exists v,
    session square_libm (repeat (CallEvaluate 5) 3)
      (parse_state zeroed "x+1" new_parser)
    = (repeat (EvalReply (Some v)) 3, parse_state zeroed "x+1" new_parser).
Proof.
  apply (proj2 (proj2 (proj2 (proj2 (proj2
           (evaluate_leaves_object square_libm
              (parse_state zeroed "x+1" new_parser))))))
           zeroed "x+1"%string new_parser).
  vm_compute. reflexivity.
Defined.

(** ** The lookahead left by an earlier call *)

Section StaleToken.

Variable uninit : memory.

Lemma TS_NUMBER_frame t n d p :
  same_but_token t (TS_NUMBER uninit n d p)
                   (TS_NUMBER uninit n d (set_token t p)).
Proof.
  unfold same_but_token, TS_NUMBER.
  destruct (number_digits n d) as [n1 d1].
  destruct (is_char (peek d1) "."); [| reflexivity].
  destruct (negb (isdigit (peek (tl d1)))); [reflexivity |].
  simpl buf. destruct (fraction_digits uninit (tl d1) _) as [d3 b'].
  reflexivity.
Qed.

Lemma TS_FUNCNAME_frame t d p :
  same_but_token t (TS_FUNCNAME uninit d p)
                   (TS_FUNCNAME uninit d (set_token t p)).
Proof.
  unfold same_but_token, TS_FUNCNAME. simpl buf.
  destruct (name_letters uninit d _) as [d1 b].
  destruct (find_index String.eqb _ funcnames); reflexivity.
Qed.

Lemma TS_DELIM_frame t d p :
  same_but_token t (TS_DELIM d p) (TS_DELIM d (set_token t p)).
Proof.
  unfold same_but_token, TS_DELIM.
  destruct (find_index Ascii.eqb (peek d) delims); reflexivity.
Qed.

Lemma TS_INITIAL_frame t d p :
  same_but_token t (TS_INITIAL uninit d p)
                   (TS_INITIAL uninit d (set_token t p)).
Proof.
  induction d as [| c d IH]; simpl.
  - reflexivity.
  - destruct (isspace c); [exact IH |].
    destruct (is_char (tolower c) "x"); [reflexivity |].
    destruct (isdigit c); [apply TS_NUMBER_frame |].
    destruct (isalpha c); [apply TS_FUNCNAME_frame |].
    destruct (is_char c NUL); [reflexivity |].
    apply TS_DELIM_frame.
Qed.

(** [nextToken] overwrites the lookahead when it returns; when it throws,
    the old lookahead is all that tells the two objects apart. *)
Lemma nextToken_stale t p :
  nextToken uninit (set_token t p) =
  match nextToken uninit p with
  | (Ok a, q) => (Ok a, q)
  | (r, q) => (r, set_token t q)
  end.
Proof.
  unfold nextToken, bind, getToken. simpl data.
  rewrite (TS_INITIAL_frame t (data p) p).
  destruct (TS_INITIAL uninit (data p) p) as [[t' | e |] q]; reflexivity.
Qed.

Lemma parse_body_stale t f p0 :
  fst (parse_body uninit f (set_token t p0)) = fst (parse_body uninit f p0) /\
  rpn (snd (parse_body uninit f (set_token t p0)))
    = rpn (snd (parse_body uninit f p0)).
Proof.
  unfold parse_body. unfold bind at 1 3 5 7. rewrite nextToken_stale.
  destruct (nextToken uninit p0) as [[a | e |] q1]; simpl; auto.
Qed.

(** What [parse] returns and the program it leaves do not depend on the
    object it is called on. *)
Lemma parse_stale p q s :
  parse_result uninit s p = parse_result uninit s q /\
  rpn (parse_state uninit s p) = rpn (parse_state uninit s q).
Proof.
  unfold parse_result, parse_state, parse, parse_with.
  set (p0 := mkParser (list_ascii_of_string s) (token q)
                      (v_reserve uninit 80 v_empty) []).
  change (mkParser (list_ascii_of_string s) (token p)
                   (v_reserve uninit 80 v_empty) [])
    with (set_token (token p) p0).
  destruct (parse_body_stale (token p) (parse_fuel s) p0) as [H1 H2].
  destruct (parse_body uninit (parse_fuel s) (set_token (token p) p0))
    as [r1 q1].
  destruct (parse_body uninit (parse_fuel s) p0) as [r2 q2].
  simpl in H1, H2. subst r2.
  destruct r1; simpl; auto.
Qed.

End StaleToken.

(** ** Implicit multiplication *)

Lemma EXPR4_NUMBER uninit f p p' :
  type (token p) = T_NUMBER ->
  EXPR4 uninit (S f) p = (Ok tt, p') ->
  exists q,
    nextToken uninit (set_rpn (rpn p ++ [token p]) p) = (Ok tt, q) /\
    ((type (token q) = T_X /\
      rpn p' = rpn p ++ [token p; Tok T_X; Tok T_MUL]) \/
     (type (token q) = T_LPAREN /\
      exists code, pushes_one code /\
                   rpn p' = rpn p ++ [token p] ++ code ++ [Tok T_MUL]) \/
     (type (token q) <> T_X /\ type (token q) <> T_LPAREN /\ p' = q)).
Proof.
  intros Ety H. simpl in H.
  apply bind_Ok in H. destruct H as (tok & q0 & Hq & H).
  apply get_token_Ok in Hq. destruct Hq as [-> ->].
  rewrite Ety in H. simpl in H.
  apply bind_Ok in H. destruct H as ([] & q1 & H1 & H).
  apply rpn_push_back_Ok in H1. subst q1.
  apply bind_Ok in H. destruct H as ([] & q & H2 & H).
  exists q. split; [exact H2 |].
  apply nextToken_Ok in H2. destruct H2 as (R2 & T2 & _). simpl in R2.
  apply bind_Ok in H. destruct H as (tok' & q0 & Hq & H).
  apply get_token_Ok in Hq. destruct Hq as [-> ->].
  destruct (type (token q)) eqn:Ety2; simpl in H;
    try (right; right; apply ret_Ok in H; destruct H as [_ ->];
         repeat split; discriminate).
  - (* '(' *)
    right; left. split; [reflexivity |].
    apply bind_Ok in H. destruct H as ([] & q3 & H3 & H).
    apply nextToken_Ok in H3. destruct H3 as (R3 & T3 & _).
    apply bind_Ok in H. destruct H as ([] & q4 & H4 & H).
    eapply grammar_ok_all in H4; [| exact T3].
    destruct H4 as (_ & _ & code & R4 & Hc).
    apply bind_Ok in H. destruct H as ([] & q5 & H5 & H).
    apply expectToken_Ok in H5. destruct H5 as [-> _].
    apply bind_Ok in H. destruct H as ([] & q6 & H6 & H).
    apply nextToken_Ok in H6. destruct H6 as (R6 & _ & _).
    apply rpn_push_back_Ok in H. subst p'. simpl.
    exists code. split; [exact Hc |].
    rewrite R6, R4, R3, R2, <- !app_assoc. reflexivity.
  - (* x *)
    left. split; [reflexivity |].
    apply bind_Ok in H. destruct H as ([] & q3 & H3 & H).
    apply rpn_push_back_Ok in H3. subst q3.
    apply bind_Ok in H. destruct H as ([] & q4 & H4 & H).
    apply rpn_push_back_Ok in H4. subst q4.
    apply nextToken_Ok in H. destruct H as (R & _ & _). simpl in R.
    rewrite R, R2, <- !app_assoc. reflexivity.
Qed.

(** ** One exponent step *)

Lemma EXPR3_single_step uninit f p q1 q2 q3 :
  EXPR4 uninit f p = (Ok tt, q1) ->
  type (token q1) = T_POW ->
  nextToken uninit q1 = (Ok tt, q2) ->
  EXPR4 uninit f q2 = (Ok tt, q3) ->
  EXPR3 uninit (S f) p = (Ok tt, set_rpn (rpn q3 ++ [Tok T_POW]) q3).
Proof.
  intros H1 Ety H2 H3. simpl.
  erewrite bind_eq; [| exact H1]. unfold get_token at 1.
  unfold bind at 1. rewrite Ety. simpl.
  erewrite bind_eq; [| exact H2]. erewrite bind_eq; [| exact H3].
  reflexivity.
Qed.

(** A lookahead that starts no loop iteration and closes nothing stays
    where it is, and the caller's [expectToken] throws. *)
Lemma lookahead_left_over uninit f p :
  type (token p) = T_POW \/ type (token p) = T_FUNC ->
  EXPR2_while uninit (S f) p = (Ok tt, p) /\
  EXPR_while uninit (S f) p = (Ok tt, p) /\
  expectToken T_END p = (Throw (ExToken (token p)), p) /\
  expectToken T_RPAREN p = (Throw (ExToken (token p)), p).
Proof.
  intros Ety. simpl. unfold expectToken, bind, get_token.
  destruct Ety as [-> | ->]; simpl; auto.
Qed.

Lemma EXPR4_NUMBER_FUNC uninit f p p' :
  type (token p) = T_NUMBER ->
  EXPR4 uninit (S f) p = (Ok tt, p') ->
  exists q,
    nextToken uninit (set_rpn (rpn p ++ [token p]) p) = (Ok tt, q) /\
    (type (token q) = T_FUNC -> p' = q /\ rpn p' = rpn p ++ [token p]).
Proof.
  intros Ety H.
  destruct (EXPR4_NUMBER _ _ _ Ety H) as (q & Hq & Hcases).
  exists q. split; [exact Hq |]. intros Hty.
  destruct Hcases as [[E1 _] | [[E2 _] | (_ & _ & ->)]]; try congruence.
  split; [reflexivity |].
  apply nextToken_Ok in Hq. destruct Hq as (R & _ & _). exact R.
Qed.

(** ** Spellings *)

Lemma tolower_cases d c : tolower d = c -> d = c \/ d = toupper c.
Proof.
  intros <-.
  destruct d as [[] [] [] [] [] [] [] []]; vm_compute; auto.
Qed.

Lemma case_variants_complete w :
  In w (case_variants (map tolower w)).
Proof.
  induction w as [| d w IH]; simpl.
  - left. reflexivity.
  - apply in_flat_map. exists w. split; [exact IH |].
    destruct (tolower_cases d eq_refl) as [H | H].
    + left. congruence.
    + right. left. congruence.
Qed.

Lemma misspellings_rejected_all uninit p :
  misspellings_rejected uninit p = true.
Proof. vm_compute. reflexivity. Qed.

Lemma misspelling_parse_false uninit p name w :
  In name funcnames -> lower_string w = name -> w <> name ->
  parse_result uninit (w ++ "(x)") p = Ok false.
Proof.
  intros Hin Hlow Hne.
  pose proof (misspellings_rejected_all uninit p) as H.
  unfold misspellings_rejected in H.
  rewrite forallb_forall in H. specialize (H name Hin).
  rewrite forallb_forall in H.
  specialize (H (list_ascii_of_string w)).
  unfold misspelling_rejected in H.
  rewrite string_of_list_ascii_of_string in H.
  assert (Hv : In (list_ascii_of_string w)
                  (case_variants (list_ascii_of_string name))).
  { rewrite <- Hlow. unfold lower_string.
    rewrite list_ascii_of_string_of_list_ascii.
    apply case_variants_complete. }
  specialize (H Hv).
  destruct (String.eqb w name) eqn:E.
  - apply String.eqb_eq in E. contradiction.
  - simpl in H.
    destruct (parse_result uninit (w ++ "(x)") p) as [[] | |];
      try discriminate H. reflexivity.
Qed.


(** ** The claims about particular inputs *)

(** C3.  A NUMBER directly followed by the variable or by an opening
    parenthesis is an implicit multiplication, and MUL is emitted after both
    operands: [EXPR4] appends NUMBER, x, MUL in the first case and NUMBER,
    the code of the parenthesised expression, MUL in the second.
    [parse("3x")] returns true and [evaluate(2)] is 6.0; [parse("2(x+1)")]
    returns true and [evaluate(3)] is 8.0. *)
Theorem implicit_multiplication :
  (forall uninit f p p',
     type (token p) = T_NUMBER ->
     EXPR4 uninit (S f) p = (Ok tt, p') ->
     exists q,
       nextToken uninit (set_rpn (rpn p ++ [token p]) p) = (Ok tt, q) /\
       (type (token q) = T_X ->
        rpn p' = rpn p ++ [token p; Tok T_X; Tok T_MUL]) /\
       (type (token q) = T_LPAREN ->
        exists code, pushes_one code /\
                     rpn p' = rpn p ++ [token p] ++ code ++ [Tok T_MUL])) /\
  (forall uninit p m,
     parse_result uninit "3x" p = Ok true /\
     rpn (parse_state uninit "3x" p)
       = [TokReal T_NUMBER 3; Tok T_X; Tok T_MUL] /\
     evaluate m (parse_state uninit "3x" p) 2 = Some 6%float) /\
  (forall uninit p m,
     parse_result uninit "2(x+1)" p = Ok true /\
     rpn (parse_state uninit "2(x+1)" p)
       = [TokReal T_NUMBER 2; Tok T_X; TokReal T_NUMBER 1; Tok T_PLUS;
          Tok T_MUL] /\
     evaluate m (parse_state uninit "2(x+1)" p) 3 = Some 8%float).
Proof.
  split; [| split].
  - intros uninit f p p' Ety H.
    destruct (EXPR4_NUMBER _ _ _ Ety H) as (q & Hq & Hcases).
    exists q. split; [exact Hq |].
    split; intros Hty;
      destruct Hcases as [[E1 H1] | [[E2 H2] | (N1 & N2 & _)]];
      try assumption; congruence.
  - intros uninit p m. vm_compute. repeat split.
  - intros uninit p m. vm_compute. repeat split.
Qed.

Lemma implicit_multiplication_witness :
  exists q,
    nextToken zeroed
      (set_rpn (rpn (after_first_token "3x")
                ++ [token (after_first_token "3x")])
         (after_first_token "3x")) = (Ok tt, q) /\
    (type (token q) = T_X ->
     rpn (snd (EXPR4 zeroed 1 (after_first_token "3x")))
       = rpn (after_first_token "3x")
         ++ [token (after_first_token "3x"); Tok T_X; Tok T_MUL]) /\
    (type (token q) = T_LPAREN ->
     exists code,
       pushes_one code /\
       rpn (snd (EXPR4 zeroed 1 (after_first_token "3x")))
         = rpn (after_first_token "3x")
           ++ [token (after_first_token "3x")] ++ code ++ [Tok T_MUL]).
Proof.
  apply (proj1 implicit_multiplication zeroed 0 (after_first_token "3x")
           (snd (EXPR4 zeroed 1 (after_first_token "3x")))).
  - vm_compute. reflexivity.
  - vm_compute. reflexivity.
Defined.

(** C5.  [EXPR3] takes at most one exponent step: once the step is
    taken it returns without looking at the lookahead again, a '^' left as
    lookahead is consumed by neither loop and fails both [expectToken]
    calls, and so [parse("2^3^4")] returns false (while each parenthesised
    reading is accepted). *)
Theorem chained_exponent_rejected :
  (forall uninit p,
     parse_result uninit "2^3^4" p = Ok false /\
     parse_result uninit "2^3" p = Ok true /\
     parse_result uninit "(2^3)^4" p = Ok true /\
     parse_result uninit "2^(3^4)" p = Ok true) /\
  (forall uninit f p q1 q2 q3,
     EXPR4 uninit f p = (Ok tt, q1) ->
     type (token q1) = T_POW ->
     nextToken uninit q1 = (Ok tt, q2) ->
     EXPR4 uninit f q2 = (Ok tt, q3) ->
     EXPR3 uninit (S f) p = (Ok tt, set_rpn (rpn q3 ++ [Tok T_POW]) q3)) /\
  (forall uninit f p,
     type (token p) = T_POW ->
     EXPR2_while uninit (S f) p = (Ok tt, p) /\
     EXPR_while uninit (S f) p = (Ok tt, p) /\
     expectToken T_END p = (Throw (ExToken (token p)), p) /\
     expectToken T_RPAREN p = (Throw (ExToken (token p)), p)).
Proof.
  split; [| split].
  - intros uninit p. vm_compute. repeat split.
  - intros uninit f p q1 q2 q3. apply EXPR3_single_step.
  - intros uninit f p Ety. apply lookahead_left_over. left. exact Ety.
Qed.

Lemma chained_exponent_rejected_witness :
  EXPR3 zeroed 2 (after_first_token "2^3^4")
    = (Ok tt,
       set_rpn (rpn (after_second_operand "2^3^4") ++ [Tok T_POW])
               (after_second_operand "2^3^4")) /\
  expectToken T_END (snd (EXPR3 zeroed 2 (after_first_token "2^3^4")))
    = (Throw (ExToken (Tok T_POW)),
       snd (EXPR3 zeroed 2 (after_first_token "2^3^4"))).
Proof.
  split.
  - apply (proj1 (proj2 chained_exponent_rejected) zeroed 1
             (after_first_token "2^3^4")
             (snd (EXPR4 zeroed 1 (after_first_token "2^3^4")))
             (snd (nextToken zeroed
                     (snd (EXPR4 zeroed 1 (after_first_token "2^3^4")))))
             (after_second_operand "2^3^4"));
      vm_compute; reflexivity.
  - apply (proj2 (proj2 chained_exponent_rejected) zeroed 0
             (snd (EXPR3 zeroed 2 (after_first_token "2^3^4")))).
    vm_compute. reflexivity.
Defined.

(** C6.  Every [parse] starts from an empty program, and after
    [parse("x")], [parse("x+1")] the program is that of x+1 alone and
    [evaluate(5)] returns 6.0, whatever the memory.  A decimal literal of the
    new formula is not free of the old one, though: [buf] is given a new
    block, the allocator may hand back the block just released, and the
    conversion of the fraction, which pushes no terminator, reads on into the
    digits the previous formula left there.  On such a block
    [parse("0.12345678901234")] after [parse("0.12345678901234568")] compiles
    the value of the first literal, which [evaluate] then returns, and
    [parse("1.5")] after [parse("1.25")] compiles 1.55 when the block comes
    back as it was left. *)
Theorem reparse_reads_previous_digits :
  (forall uninit s p q,
     parse_result uninit s p = parse_result uninit s q /\
     rpn (parse_state uninit s p) = rpn (parse_state uninit s q)) /\
  (forall u1 u2 m p,
     let p1 := parse_state u1 "x" p in
     let p2 := parse_state u2 "x+1" p1 in
     parse_result u1 "x" p = Ok true /\
     rpn p1 = [Tok T_X] /\
     parse_result u2 "x+1" p1 = Ok true /\
     rpn p2 = [Tok T_X; TokReal T_NUMBER 1; Tok T_PLUS] /\
     evaluate m p2 5 = Some 6%float) /\
  (forall u1 u2 m,
     fst (session m [CallParse u1 "x"; CallParse u2 "x+1"; CallEvaluate 5]
            new_parser)
     = [ParseReply (Ok true); ParseReply (Ok true);
        EvalReply (Some 6%float)]) /\
  (forall meta bh m x p,
     let p1 := parse_state zeroed "0.12345678901234568" p in
     let u2 := recycled 16 meta bh p1 in
     let p2 := parse_state u2 "0.12345678901234" p1 in
     let fresh_p2 := parse_state zeroed "0.12345678901234" p in
     parse_result zeroed "0.12345678901234568" p = Ok true /\
     rpn p1
       = [TokReal T_NUMBER
            (atof (list_ascii_of_string "0.12345678901234568"))] /\
     rpn fresh_p2
       = [TokReal T_NUMBER (atof (list_ascii_of_string "0.12345678901234"))] /\
     parse_result u2 "0.12345678901234" p1 = Ok true /\
     rpn p2 = rpn p1 /\
     rpn p2 <> rpn fresh_p2 /\
     evaluate m p2 x
       = Some (atof (list_ascii_of_string "0.12345678901234568")) /\
     evaluate m p2 x <> evaluate m fresh_p2 x) /\
  (forall meta bh m x,
     let p1 := parse_state zeroed "0.12345678901234568" new_parser in
     fst (session m [CallParse zeroed "0.12345678901234568";
                     CallParse (recycled 16 meta bh p1) "0.12345678901234";
                     CallEvaluate x] new_parser)
     = [ParseReply (Ok true); ParseReply (Ok true);
        EvalReply
          (Some (atof (list_ascii_of_string "0.12345678901234568")))]) /\
  (forall meta bh m x p,
     let p1 := parse_state zeroed "1.25" p in
     let p2 := parse_state (recycled 0 meta bh p1) "1.5" p1 in
     rpn p1 = [TokReal T_NUMBER 1.25] /\
     rpn (parse_state zeroed "1.5" p) = [TokReal T_NUMBER 1.5] /\
     rpn p2 = [TokReal T_NUMBER (1 + atof (list_ascii_of_string "0.55"))] /\
     evaluate m p2 x <> Some 1.5%float).
Proof.
  split; [| split; [| split; [| split; [| split]]]].
  - intros uninit s p q. apply parse_stale.
  - intros u1 u2 m p. vm_compute. repeat split.
  - intros u1 u2 m. vm_compute. reflexivity.
  - intros meta bh m x p.
    repeat split; try (vm_compute; reflexivity); vm_compute; discriminate.
  - intros meta bh m x. vm_compute. reflexivity.
  - intros meta bh m x p. repeat split; try (vm_compute; reflexivity).
    vm_compute. discriminate.
Qed.

(** C8.  Unary minus binds tighter than exponentiation: [parse("-x^2")]
    returns true with the program x NEGATE 2 POW, so [evaluate(x)] is
    [pow(-x, 2)] for every [x], and 4.0 at [x = 2] as soon as [pow(-2, 2)]
    is 4.0; the program of "-(x^2)" is another one, x 2 POW NEGATE. *)
Theorem unary_minus_binds_tighter uninit p m :
  parse_result uninit "-x^2" p = Ok true /\
  rpn (parse_state uninit "-x^2" p)
    = [Tok T_X; Tok T_NEGATE; TokReal T_NUMBER 2; Tok T_POW] /\
  (forall x,
     evaluate m (parse_state uninit "-x^2" p) x
       = Some (m_pow m (- x) 2)%float) /\
  (m_pow m (-2) 2 = 4%float ->
   evaluate m (parse_state uninit "-x^2" p) 2 = Some 4%float) /\
  rpn (parse_state uninit "-(x^2)" p)
    = [Tok T_X; TokReal T_NUMBER 2; Tok T_POW; Tok T_NEGATE].
Proof.
  split; [vm_compute; reflexivity |].
  split; [vm_compute; reflexivity |].
  split; [| split].
  - intros x. vm_compute. reflexivity.
  - intros H. rewrite <- H. vm_compute. reflexivity.
  - vm_compute. reflexivity.
Qed.

Lemma unary_minus_binds_tighter_witness :
  evaluate square_libm (parse_state zeroed "-x^2" new_parser) 2
    = Some 4%float.
Proof.
  apply (proj1 (proj2 (proj2 (proj2
           (unary_minus_binds_tighter zeroed new_parser square_libm))))).
  vm_compute. reflexivity.
Defined.

(** C9.  A NUMBER directly followed by a function name is not an implicit
    multiplication: [EXPR4] then emits the number alone and leaves the
    FUNCTION token as lookahead, which no loop consumes and on which
    [expectToken] throws.  [parse("2cos(x)")] returns false, and so it does
    for every function of the table (the explicit product is accepted, and
    so are the two implicit forms). *)
Theorem number_before_function_rejected :
  (forall uninit p,
     parse_result uninit "2cos(x)" p = Ok false /\
     parse_result uninit "2x" p = Ok true /\
     parse_result uninit "2(x)" p = Ok true) /\
  (forall uninit p name, In name funcnames ->
     parse_result uninit ("2" ++ name ++ "(x)") p = Ok false /\
     parse_result uninit ("2*" ++ name ++ "(x)") p = Ok true) /\
  (forall uninit f p p',
     type (token p) = T_NUMBER ->
     EXPR4 uninit (S f) p = (Ok tt, p') ->
     exists q,
       nextToken uninit (set_rpn (rpn p ++ [token p]) p) = (Ok tt, q) /\
       (type (token q) = T_FUNC -> p' = q /\ rpn p' = rpn p ++ [token p])) /\
  (forall uninit f p,
     type (token p) = T_FUNC ->
     EXPR2_while uninit (S f) p = (Ok tt, p) /\
     EXPR_while uninit (S f) p = (Ok tt, p) /\
     expectToken T_END p = (Throw (ExToken (token p)), p) /\
     expectToken T_RPAREN p = (Throw (ExToken (token p)), p)).
Proof.
  split; [| split; [| split]].
  - intros uninit p. vm_compute. auto.
  - intros uninit p name Hin. simpl in Hin.
    repeat (destruct Hin as [<- | Hin]; [vm_compute; auto |]).
    contradiction Hin.
  - intros uninit f p p'. apply EXPR4_NUMBER_FUNC.
  - intros uninit f p Ety. apply lookahead_left_over. right. exact Ety.
Qed.

Lemma number_before_function_rejected_witness :
  (parse_result zeroed ("2" ++ "sin" ++ "(x)") new_parser = Ok false /\
   parse_result zeroed ("2*" ++ "sin" ++ "(x)") new_parser = Ok true) /\
  (exists q,
     nextToken zeroed
       (set_rpn (rpn (after_first_token "2cos(x)")
                 ++ [token (after_first_token "2cos(x)")])
          (after_first_token "2cos(x)")) = (Ok tt, q) /\
     (type (token q) = T_FUNC ->
      snd (EXPR4 zeroed 1 (after_first_token "2cos(x)")) = q /\
      rpn (snd (EXPR4 zeroed 1 (after_first_token "2cos(x)")))
        = rpn (after_first_token "2cos(x)")
          ++ [token (after_first_token "2cos(x)")])) /\
  expectToken T_END (snd (EXPR4 zeroed 1 (after_first_token "2cos(x)")))
    = (Throw (ExToken (TokInt T_FUNC 0)),
       snd (EXPR4 zeroed 1 (after_first_token "2cos(x)"))).
Proof.
  split; [| split].
  - apply (proj1 (proj2 number_before_function_rejected) zeroed new_parser).
    simpl. auto.
  - apply (proj1 (proj2 (proj2 number_before_function_rejected)) zeroed 0
             (after_first_token "2cos(x)")
             (snd (EXPR4 zeroed 1 (after_first_token "2cos(x)")))).
    + vm_compute. reflexivity.
    + vm_compute. reflexivity.
  - apply (proj2 (proj2 (proj2 number_before_function_rejected)) zeroed 0
             (snd (EXPR4 zeroed 1 (after_first_token "2cos(x)")))).
    vm_compute. reflexivity.
Defined.

(** C10.  Function names are case-sensitive while the variable is not:
    every name of the table is accepted in its lower-case spelling, applied
    to [x] or to [X], every other spelling of it that differs only in case
    is rejected; [parse("COS(x)")] returns false and [parse("cos(X)")]
    returns true. *)
Theorem function_names_case_sensitive uninit p :
  (forall name, In name funcnames ->
     parse_result uninit (name ++ "(x)") p = Ok true /\
     parse_result uninit (name ++ "(X)") p = Ok true) /\
  (forall name w, In name funcnames ->
     lower_string w = name -> w <> name ->
     parse_result uninit (w ++ "(x)") p = Ok false) /\
  parse_result uninit "COS(x)" p = Ok false /\
  parse_result uninit "cos(X)" p = Ok true.
Proof.
  split; [| split; [| vm_compute; auto]].
  - intros name Hin. simpl in Hin.
    repeat (destruct Hin as [<- | Hin]; [vm_compute; auto |]).
    contradiction Hin.
  - intros name w. apply misspelling_parse_false.
Qed.

Lemma function_names_case_sensitive_witness :
  (parse_result zeroed ("arctg" ++ "(x)") new_parser = Ok true /\
   parse_result zeroed ("arctg" ++ "(X)") new_parser = Ok true) /\
  parse_result zeroed ("ArcTg" ++ "(x)") new_parser = Ok false.
Proof.
  split.
  - apply (proj1 (function_names_case_sensitive zeroed new_parser)).
    simpl. tauto.
  - apply (proj1 (proj2 (function_names_case_sensitive zeroed new_parser))
             "arctg"%string "ArcTg"%string).
    + simpl. tauto.
    + reflexivity.
    + discriminate.
Defined.

(** C4.  The fraction of a decimal literal is handed to [atof] without a
    terminator, so [atof] reads on into what an earlier literal left in
    [buf].  After "1.25+1.5" the vector holds the three elements "0.5" and
    its storage starts with "0.55", whatever the storage held when it was
    reserved; in zero-filled storage the second literal is read as
    1 + atof("0.55"), not as 1.5, and the sum is not 2.75.  With the longer
    fraction last ("1.5+1.25") and in "1.5*x" the values are the decimal
    ones. *)
Theorem decimal_literal_reads_stale_digits :
  (forall uninit p,
     size (buf (parse_state uninit "1.25+1.5" p)) = 3 /\
     firstn 4 (v_data (buf (parse_state uninit "1.25+1.5" p)))
       = list_ascii_of_string "0.55") /\
  (forall p m x,
     parse_result zeroed "1.25+1.5" p = Ok true /\
     rpn (parse_state zeroed "1.25+1.5" p)
       = [TokReal T_NUMBER 1.25;
          TokReal T_NUMBER (1 + atof (list_ascii_of_string "0.55"));
          Tok T_PLUS] /\
     evaluate m (parse_state zeroed "1.25+1.5" p) x <> Some 2.75%float) /\
  (forall p m x,
     rpn (parse_state zeroed "1.5+1.25" p)
       = [TokReal T_NUMBER 1.5; TokReal T_NUMBER 1.25; Tok T_PLUS] /\
     evaluate m (parse_state zeroed "1.5+1.25" p) x = Some 2.75%float /\
     parse_result zeroed "1.5*x" p = Ok true /\
     evaluate m (parse_state zeroed "1.5*x" p) 2 = Some 3%float).
Proof.
  split; [| split].
  - intros uninit p. vm_compute. auto.
  - intros p m x. repeat split; try (vm_compute; reflexivity).
    vm_compute. discriminate.
  - intros p m x. vm_compute. auto.
Qed.

(** * Further properties of the lexer, the parser and the evaluator *)

(** ** Character classes *)

Lemma isalpha_class c :
  isalpha c = true ->
  isspace c = false /\ isdigit c = false /\ is_char c NUL = false.
Proof.
  destruct c as [[] [] [] [] [] [] [] []]; vm_compute; intros H;
    try discriminate H; auto.
Qed.

Lemma isdigit_class c :
  isdigit c = true ->
  isspace c = false /\ is_char (tolower c) "x" = false /\
  is_char c NUL = false /\ (0 <= digit_val c <= 9)%Z.
Proof.
  destruct c as [[] [] [] [] [] [] [] []]; vm_compute; intros H;
    try discriminate H; repeat split; discriminate.
Qed.

Lemma peek_not_digit_cases (d : list ascii) :
  isdigit (peek d) = false ->
  d = [] \/ exists c d', d = c :: d' /\ isdigit c = false.
Proof.
  destruct d as [| c d']; simpl; intros H; [left | right]; eauto.
Qed.

(** ** The integer part of a literal *)

Lemma decimal_from_ge n ds :
  (0 <= n)%Z -> Forall (fun c => isdigit c = true) ds ->
  (n <= decimal_from n ds)%Z.
Proof.
  unfold decimal_from. revert n.
  induction ds as [| c ds IH]; simpl; intros n Hn Hds.
  - lia.
  - inversion Hds as [| c' ds' Hc Hds']; subst.
    destruct (isdigit_class c Hc) as (_ & _ & _ & Hv).
    specialize (IH (n * 10 + digit_val c)%Z). 
    assert (n <= n * 10 + digit_val c)%Z by lia.
    etransitivity; [eassumption |]. apply IH; [lia | assumption].
Qed.

Lemma wrap32_small z :
  (-2147483648 <= z < 2147483648)%Z -> wrap32 z = z.
Proof.
  intros H. unfold wrap32.
  rewrite Z.mod_small by lia. lia.
Qed.

Lemma number_digits_run n ds rest :
  (0 <= n)%Z ->
  Forall (fun c => isdigit c = true) ds ->
  isdigit (peek rest) = false ->
  (decimal_from n ds < 2147483648)%Z ->
  number_digits n (ds ++ rest) = (decimal_from n ds, rest).
Proof.
  revert n. induction ds as [| c ds IH]; intros n Hn Hds Hrest Hlt.
  - simpl. destruct rest as [| c rest]; [reflexivity |].
    simpl in Hrest. simpl. rewrite Hrest. reflexivity.
  - inversion Hds as [| c' ds' Hc Hds']; subst.
    destruct (isdigit_class c Hc) as (_ & _ & _ & Hv).
    simpl. rewrite Hc.
    change (decimal_from n (c :: ds))
      with (decimal_from (n * 10 + digit_val c) ds) in *.
    assert (Hge : (n * 10 + digit_val c
                   <= decimal_from (n * 10 + digit_val c) ds)%Z)
      by (apply decimal_from_ge; [lia | assumption]).
    replace (n * 10 + Z.of_nat (code c) - 48)%Z
      with (n * 10 + digit_val c)%Z by (unfold digit_val; lia).
    rewrite wrap32_small by lia.
    apply IH; try assumption; lia.
Qed.

(** The cursor after the digits, whatever their value. *)
Lemma number_digits_rest n ds rest :
  Forall (fun c => isdigit c = true) ds ->
  isdigit (peek rest) = false ->
  snd (number_digits n (ds ++ rest)) = rest.
Proof.
  revert n. induction ds as [| c ds IH]; intros n Hds Hrest.
  - simpl. destruct rest as [| c rest]; [reflexivity |].
    simpl in Hrest. simpl. rewrite Hrest. reflexivity.
  - inversion Hds as [| c' ds' Hc Hds']; subst.
    simpl. rewrite Hc. apply IH; assumption.
Qed.

Lemma TS_INITIAL_digit uninit c d p :
  isdigit c = true ->
  TS_INITIAL uninit (c :: d) p = TS_NUMBER uninit (digit_val c) d p.
Proof.
  intros Hc. destruct (isdigit_class c Hc) as (Hs & Hx & _ & _).
  simpl. rewrite Hs, Hx, Hc. reflexivity.
Qed.

(** X4.  A run of digits whose value is below 2^31, followed by a character
    that is neither a digit nor the decimal point, lexes to one NUMBER token
    holding exactly that value, and the cursor stops right behind the
    digits. *)
Theorem integer_literal_value uninit p ds rest :
  ds <> [] ->
  Forall (fun c => isdigit c = true) ds ->
  isdigit (peek rest) = false ->
  is_char (peek rest) "." = false ->
  (decimal ds < 2147483648)%Z ->
  data p = ds ++ rest ->
  getToken uninit p
  = (Ok (TokReal T_NUMBER (double_of_int (decimal ds))), set_data rest p).
Proof.
  intros Hne Hds Hrest Hdot Hlt Hd.
  destruct ds as [| c ds]; [contradiction Hne; reflexivity |].
  inversion Hds as [| c' ds' Hc Hds']; subst.
  destruct (isdigit_class c Hc) as (_ & _ & _ & Hv).
  unfold getToken. rewrite Hd. simpl app.
  rewrite TS_INITIAL_digit by exact Hc.
  unfold TS_NUMBER.
  change (decimal (c :: ds)) with (decimal_from (digit_val c) ds) in *.
  rewrite number_digits_run; try assumption; try lia.
  rewrite Hdot. reflexivity.
Qed.

Lemma integer_literal_value_witness :
  getToken zeroed
    (mkParser (list_ascii_of_string "2147483647+x") (Tok T_END) v_empty [])
  = (Ok (TokReal T_NUMBER 2147483647),
     set_data (list_ascii_of_string "+x")
       (mkParser (list_ascii_of_string "2147483647+x") (Tok T_END)
                 v_empty [])).
Proof.
  apply (@integer_literal_value zeroed
           (mkParser (list_ascii_of_string "2147483647+x") (Tok T_END)
                     v_empty [])
           (list_ascii_of_string "2147483647") (list_ascii_of_string "+x")).
  - discriminate.
  - repeat constructor.
  - reflexivity.
  - reflexivity.
  - vm_compute. reflexivity.
  - reflexivity.
Defined.

(** X5.  Digits followed by a decimal point that no digit follows are a
    lexical error: [getToken] throws with the cursor behind the point, and
    [parse] of an input that starts this way returns false with an empty
    program. *)
Theorem point_without_digit_rejected uninit ds r :
  ds <> [] ->
  Forall (fun c => isdigit c = true) ds ->
  isdigit (peek r) = false ->
  (forall p, data p = ds ++ "."%char :: r ->
     getToken uninit p = (Throw (ExCharPtr r), set_data r p)) /\
  (forall s p, list_ascii_of_string s = ds ++ "."%char :: r ->
     parse uninit s p
     = (Ok false,
        mkParser r (token p) (v_reserve uninit 80 v_empty) [])).
Proof.
  intros Hne Hds Hr.
  assert (Hlex : forall p, data p = ds ++ "."%char :: r ->
            getToken uninit p = (Throw (ExCharPtr r), set_data r p)).
  { intros p Hd.
    destruct ds as [| c ds]; [contradiction Hne; reflexivity |].
    inversion Hds as [| c' ds' Hc Hds']; subst.
    unfold getToken. rewrite Hd. simpl app.
    rewrite TS_INITIAL_digit by exact Hc.
    unfold TS_NUMBER.
    pose proof (@number_digits_rest (digit_val c) ds ("."%char :: r) Hds'
                  eq_refl) as Hn.
    destruct (number_digits (digit_val c) (ds ++ "."%char :: r))
      as [n d1]. simpl in Hn. subst d1.
    simpl. rewrite Hr. reflexivity. }
  split; [exact Hlex |].
  intros s p Hs. unfold parse, parse_with, parse_body, nextToken.
  set (p0 := mkParser (list_ascii_of_string s) (token p)
                      (v_reserve uninit 80 v_empty) []).
  unfold bind. rewrite (Hlex p0 Hs). reflexivity.
Qed.

Lemma point_without_digit_rejected_witness :
  parse zeroed "12.+x" new_parser
  = (Ok false,
     mkParser (list_ascii_of_string "+x") (token new_parser)
              (v_reserve zeroed 80 v_empty) []).
Proof.
  apply (proj2 (@point_without_digit_rejected zeroed
                  (list_ascii_of_string "12") (list_ascii_of_string "+x")
                  ltac:(discriminate) ltac:(repeat constructor) eq_refl)
           "12.+x"%string new_parser).
  reflexivity.
Defined.

(** ** The storage of [buf] *)

Lemma set_nth_length i c l : List.length (set_nth i c l) = List.length l.
Proof.
  revert i. induction l as [| d l IH]; intros [| i]; simpl; auto.
Qed.

Lemma set_nth_firstn_S i c l :
  i < List.length l -> firstn (S i) (set_nth i c l) = firstn i l ++ [c].
Proof.
  revert i. induction l as [| d l IH]; intros [| i]; simpl; intros H;
    try lia; try reflexivity.
  f_equal. apply IH. lia.
Qed.

Lemma set_nth_above i j c l :
  i < j -> nth_error (set_nth i c l) j = nth_error l j.
Proof.
  revert i j. induction l as [| d l IH]; intros [| i] [| j] H; simpl;
    try lia; try reflexivity.
  apply IH. lia.
Qed.

Section VectorFacts.

Variable uninit : memory.

(** [push_back] adds one live element at the end; while the block is not
    full, the cells behind it keep what they held. *)
Lemma v_push_back_spec c v :
  size v <= capacity v ->
  size (v_push_back uninit c v) = S (size v) /\
  size (v_push_back uninit c v) <= capacity (v_push_back uninit c v) /\
  firstn (S (size v)) (storage (v_push_back uninit c v))
    = firstn (size v) (storage v) ++ [c] /\
  (size v < capacity v ->
   forall j, size v < j ->
     nth_error (storage (v_push_back uninit c v)) j
       = nth_error (storage v) j).
Proof.
  intros Hinv. unfold v_push_back, capacity in *.
  destruct (size v <? List.length (storage v)) eqn:E.
  - apply Nat.ltb_lt in E. cbn [storage size].
    rewrite set_nth_length.
    repeat split; try lia.
    + apply set_nth_firstn_S. exact E.
    + intros _ j Hj. apply set_nth_above. exact Hj.
  - apply Nat.ltb_ge in E.
    assert (Hs : size v = List.length (storage v)) by lia.
    unfold v_reserve, capacity.
    assert (Hc : (List.length (storage v)
                  <? Nat.max 1 (2 * List.length (storage v))) = true)
      by (apply Nat.ltb_lt; lia).
    rewrite Hc. cbn [storage size].
    set (blk := firstn (size v) (storage v)
                ++ map (fresh uninit)
                     (seq (size v)
                        (Nat.max 1 (2 * List.length (storage v)) - size v))).
    assert (Hlen : size v < List.length blk).
    { unfold blk. rewrite length_app, length_map, length_seq,
        firstn_length_le by lia. lia. }
    rewrite set_nth_length.
    repeat split; try lia.
    rewrite set_nth_firstn_S by exact Hlen.
    f_equal. unfold blk.
    rewrite firstn_app, firstn_firstn, Nat.min_id.
    rewrite firstn_length_le by lia.
    rewrite Nat.sub_diag. simpl. apply app_nil_r.
Qed.

Lemma push_all_spec cs v :
  size v <= capacity v ->
  size (push_all uninit cs v) = size v + List.length cs /\
  size (push_all uninit cs v) <= capacity (push_all uninit cs v) /\
  firstn (size v + List.length cs) (storage (push_all uninit cs v))
    = firstn (size v) (storage v) ++ cs /\
  (size v + List.length cs <= capacity v ->
   forall j, size v + List.length cs <= j ->
     nth_error (storage (push_all uninit cs v)) j
       = nth_error (storage v) j).
Proof.
  revert v. induction cs as [| c cs IH]; intros v Hinv.
  - simpl. rewrite Nat.add_0_r, app_nil_r. repeat split; auto.
  - unfold push_all. simpl fold_left.
    fold (push_all uninit cs (v_push_back uninit c v)).
    destruct (v_push_back_spec c v Hinv) as (S1 & I1 & F1 & K1).
    destruct (IH _ I1) as (S2 & I2 & F2 & K2).
    rewrite S1 in S2, F2, K2. simpl List.length.
    replace (size v + S (List.length cs)) with (S (size v) + List.length cs)
      by lia.
    repeat split; try assumption.
    + rewrite F2, F1, <- app_assoc. reflexivity.
    + intros Hfit j Hj. unfold capacity in *.
      assert (Hcap : List.length (storage (v_push_back uninit c v))
                     = List.length (storage v)).
      { unfold v_push_back, capacity.
        assert (E : (size v <? List.length (storage v)) = true)
          by (apply Nat.ltb_lt; lia).
        rewrite E. cbn [storage size]. apply set_nth_length. }
      rewrite K2 by lia. apply K1; lia.
Qed.

Lemma name_letters_run w rest b :
  Forall (fun c => isalpha c = true) w ->
  isalpha (peek rest) = false ->
  name_letters uninit (w ++ rest) b = (rest, push_all uninit w b).
Proof.
  revert b. induction w as [| c w IH]; intros b Hw Hrest.
  - simpl. destruct rest as [| c rest]; [reflexivity |].
    simpl in Hrest. simpl. rewrite Hrest. reflexivity.
  - inversion Hw as [| c' w' Hc Hw']; subst.
    simpl. rewrite Hc. apply IH; assumption.
Qed.

Lemma fraction_digits_run fs rest b :
  Forall (fun c => isdigit c = true) fs ->
  isdigit (peek rest) = false ->
  fraction_digits uninit (fs ++ rest) b = (rest, push_all uninit fs b).
Proof.
  revert b. induction fs as [| c fs IH]; intros b Hfs Hrest.
  - simpl. destruct rest as [| c rest]; [reflexivity |].
    simpl in Hrest. simpl. rewrite Hrest. reflexivity.
  - inversion Hfs as [| c' fs' Hc Hfs']; subst.
    simpl. rewrite Hc. apply IH; assumption.
Qed.

End VectorFacts.

Lemma c_str_run w t :
  Forall (fun c => is_char c NUL = false) w ->
  c_str (w ++ NUL :: t) = w.
Proof.
  induction w as [| c w IH]; intros Hw.
  - reflexivity.
  - inversion Hw as [| c' w' Hc Hw']; subst.
    simpl. rewrite Hc. f_equal. apply IH. exact Hw'.
Qed.

Lemma c_str_idem l : c_str (c_str l) = c_str l.
Proof.
  induction l as [| c l IH]; simpl; [reflexivity |].
  destruct (is_char c NUL) eqn:E; [reflexivity |].
  simpl. rewrite E, IH. reflexivity.
Qed.

Lemma atof_c_str l : atof (c_str l) = atof l.
Proof. unfold atof. rewrite c_str_idem. reflexivity. Qed.

(** A block that holds [w] and then a NUL reads as the C string [w]. *)
Lemma c_str_block w blk :
  Forall (fun c => is_char c NUL = false) w ->
  firstn (List.length w) blk = w ->
  nth_error blk (List.length w) = Some NUL ->
  c_str blk = w.
Proof.
  intros Hw Hf Hn.
  rewrite <- (firstn_skipn (List.length w) blk), Hf.
  destruct (skipn (List.length w) blk) as [| c t] eqn:E.
  - apply (f_equal (fun l => nth_error l 0)) in E.
    rewrite nth_error_skipn, Nat.add_0_r, Hn in E. discriminate E.
  - apply (f_equal (fun l => nth_error l 0)) in E.
    rewrite nth_error_skipn, Nat.add_0_r, Hn in E. simpl in E.
    injection E as <-. apply c_str_run. exact Hw.
Qed.

(** The memory behind the block plays no part then. *)
Lemma c_str_block_behind w blk t :
  Forall (fun c => is_char c NUL = false) w ->
  firstn (List.length w) blk = w ->
  nth_error blk (List.length w) = Some NUL ->
  c_str (blk ++ t) = w.
Proof.
  intros Hw Hf Hn.
  assert (Hlt : List.length w < List.length blk).
  { apply nth_error_Some. rewrite Hn. discriminate. }
  apply c_str_block.
  - exact Hw.
  - rewrite firstn_app.
    replace (List.length w - List.length blk) with 0 by lia.
    rewrite Hf. simpl. apply app_nil_r.
  - rewrite nth_error_app1 by exact Hlt. exact Hn.
Qed.

(** ** Names and fractions read through [buf] *)

Lemma alpha_not_NUL w :
  Forall (fun c => isalpha c = true) w ->
  Forall (fun c => is_char c NUL = false) w.
Proof.
  intros H. eapply Forall_impl; [| exact H].
  intros c Hc. apply (isalpha_class c Hc).
Qed.

Lemma digit_not_NUL w :
  Forall (fun c => isdigit c = true) w ->
  Forall (fun c => is_char c NUL = false) w.
Proof.
  intros H. eapply Forall_impl; [| exact H].
  intros c Hc. apply (isdigit_class c Hc).
Qed.

(** The name that [TS_FUNCNAME] looks up is the run of letters under the
    cursor, whatever [buf] held before. *)
Lemma funcname_buffer uninit w b :
  Forall (fun c => isalpha c = true) w ->
  c_str (v_data_read uninit
           (v_push_back uninit NUL (push_all uninit w (v_clear b)))) = w.
Proof.
  intros Hw.
  assert (H0 : size (v_clear b) <= capacity (v_clear b))
    by (simpl; lia).
  destruct (push_all_spec uninit w (v_clear b) H0) as (S1 & I1 & F1 & _).
  destruct (v_push_back_spec uninit NUL _ I1) as (S2 & _ & F2 & _).
  simpl in S1, F1. rewrite S1 in F2. unfold v_data_read, v_data.
  set (blk := storage (v_push_back uninit NUL
                         (push_all uninit w (v_clear b)))) in *.
  apply c_str_block_behind.
  - apply alpha_not_NUL. exact Hw.
  - apply (f_equal (firstn (List.length w))) in F2.
    rewrite firstn_firstn in F2.
    replace (Nat.min (List.length w) (S (List.length w)))
      with (List.length w) in F2 by lia.
    rewrite F2, F1, firstn_app, firstn_all, Nat.sub_diag.
    simpl. apply app_nil_r.
  - apply (f_equal (fun l => nth_error l (List.length w))) in F2.
    rewrite nth_error_firstn in F2.
    assert (E : (List.length w <? S (List.length w)) = true)
      by (apply Nat.ltb_lt; lia).
    rewrite E in F2. rewrite F2, F1, nth_error_app2 by lia.
    rewrite Nat.sub_diag. reflexivity.
Qed.

(** X6.  A run of letters that does not start with the variable, followed
    by something that is not a letter, lexes to the FUNCTION token of its
    index when it is a name of the table and is a lexical error otherwise,
    whatever [buf] held before; the cursor stops behind the letters. *)
Theorem function_name_lexing uninit p w rest :
  w <> [] ->
  Forall (fun c => isalpha c = true) w ->
  is_char (tolower (hd NUL w)) "x" = false ->
  isalpha (peek rest) = false ->
  data p = w ++ rest ->
  fst (getToken uninit p)
  = match find_index String.eqb (string_of_list_ascii w) funcnames with
    | Some index => Ok (TokInt T_FUNC index)
    | None => Throw (ExCharPtr w)
    end /\
  data (snd (getToken uninit p)) = rest.
Proof.
  intros Hne Hw Hx Hrest Hd.
  destruct w as [| c w]; [contradiction Hne; reflexivity |].
  inversion Hw as [| c' w' Hc Hw']; subst.
  destruct (isalpha_class c Hc) as (Hs & Hdg & _).
  unfold getToken. rewrite Hd. simpl app. simpl in Hx.
  simpl TS_INITIAL. rewrite Hs, Hx, Hdg, Hc.
  unfold TS_FUNCNAME.
  change (c :: w ++ rest) with ((c :: w) ++ rest).
  rewrite name_letters_run by assumption.
  rewrite funcname_buffer by assumption.
  destruct (find_index String.eqb (string_of_list_ascii (c :: w)) funcnames);
    split; reflexivity.
Qed.

Lemma function_name_lexing_witness :
  fst (getToken zeroed
         (mkParser (list_ascii_of_string "arctg(x)") (Tok T_END) v_empty []))
  = match find_index String.eqb
            (string_of_list_ascii (list_ascii_of_string "arctg")) funcnames
    with
    | Some index => Ok (TokInt T_FUNC index)
    | None => Throw (ExCharPtr (list_ascii_of_string "arctg"))
    end /\
  data (snd (getToken zeroed
         (mkParser (list_ascii_of_string "arctg(x)") (Tok T_END) v_empty [])))
  = list_ascii_of_string "(x)".
Proof.
  apply (@function_name_lexing zeroed
           (mkParser (list_ascii_of_string "arctg(x)") (Tok T_END) v_empty [])
           (list_ascii_of_string "arctg") (list_ascii_of_string "(x)")).
  - discriminate.
  - repeat constructor.
  - reflexivity.
  - reflexivity.
  - reflexivity.
Defined.

Lemma atof_fraction fs :
  fs <> [] ->
  Forall (fun c => isdigit c = true) fs ->
  atof ("0"%char :: "."%char :: fs)
  = round_dec (decimal fs) (- Z.of_nat (List.length fs)).
Proof.
  intros Hne Hfs. unfold atof.
  assert (Hc : c_str ("0"%char :: "."%char :: fs)
               = "0"%char :: "."%char :: fs).
  { simpl. do 2 f_equal. rewrite <- (app_nil_r fs) at 1.
    clear Hne. induction fs as [| c fs IH]; [reflexivity |].
    inversion Hfs as [| c' fs' Hc Hfs']; subst.
    simpl. destruct (isdigit_class c Hc) as (_ & _ & Hn & _).
    rewrite Hn. f_equal. apply IH. exact Hfs'. }
  rewrite Hc. simpl skip_space. simpl scan_sign. cbv iota beta.
  assert (Hscan : forall acc cnt,
            scan_digits acc cnt fs
            = (decimal_from acc fs, (cnt + Z.of_nat (List.length fs))%Z, [])).
  { clear Hne Hc. induction fs as [| c fs IH]; intros acc cnt.
    - simpl. rewrite Z.add_0_r. reflexivity.
    - inversion Hfs as [| c' fs' Hc Hfs']; subst.
      simpl scan_digits. rewrite Hc. rewrite IH by exact Hfs'.
      simpl List.length. unfold decimal_from. simpl fold_left.
      f_equal. f_equal. lia. }
  change (scan_digits 0 0 ("0"%char :: "."%char :: fs))
    with (0%Z, 1%Z, "."%char :: fs).
  cbv beta iota zeta.
  change (is_char "."%char "."%char) with true. cbv iota.
  rewrite Hscan.
  assert (Hnz : (1 + (0 + Z.of_nat (List.length fs)) =? 0)%Z = false)
    by (apply Z.eqb_neq; lia).
  rewrite Hnz. simpl scan_exponent.
  unfold decimal. f_equal; lia.
Qed.

(** X7.  When the cell of [buf]'s storage right behind the fraction holds
    a NUL, a literal [ds.fs] with [ds] below 2^31 lexes to the NUMBER
    token whose value is the integer part plus the correctly rounded
    fraction 0.fs. *)
Theorem decimal_literal_value uninit p ds fs rest :
  ds <> [] -> fs <> [] ->
  Forall (fun c => isdigit c = true) ds ->
  Forall (fun c => isdigit c = true) fs ->
  isdigit (peek rest) = false ->
  (decimal ds < 2147483648)%Z ->
  nth_error (storage (buf p)) (2 + List.length fs) = Some NUL ->
  data p = ds ++ "."%char :: fs ++ rest ->
  fst (getToken uninit p)
  = Ok (TokReal T_NUMBER
          (double_of_int (decimal ds)
           + round_dec (decimal fs) (- Z.of_nat (List.length fs)))%float) /\
  data (snd (getToken uninit p)) = rest.
Proof.
  intros Hne Hnf Hds Hfs Hrest Hlt Hnul Hd.
  destruct ds as [| c ds]; [contradiction Hne; reflexivity |].
  inversion Hds as [| c' ds' Hc Hds']; subst.
  destruct (isdigit_class c Hc) as (_ & _ & _ & Hv).
  unfold getToken. rewrite Hd. simpl app.
  rewrite TS_INITIAL_digit by exact Hc.
  unfold TS_NUMBER.
  change (decimal (c :: ds)) with (decimal_from (digit_val c) ds) in *.
  rewrite number_digits_run; try assumption; try lia; try reflexivity.
  simpl peek. simpl tl.
  destruct fs as [| f fs]; [contradiction Hnf; reflexivity |].
  inversion Hfs as [| f' fs' Hf Hfs']; subst.
  simpl peek. rewrite Hf. simpl negb. cbv iota.
  change (f :: fs ++ rest) with ((f :: fs) ++ rest).
  rewrite fraction_digits_run by assumption.
  set (b0 := v_push_back uninit "." (v_push_back uninit "0" (v_clear (buf p)))).
  assert (Hb0 : b0 = push_all uninit ["0"; "."]%char (v_clear (buf p)))
    by reflexivity.
  assert (Hall : push_all uninit (f :: fs) b0
                 = push_all uninit (["0"; "."]%char ++ f :: fs)
                            (v_clear (buf p))).
  { rewrite Hb0. unfold push_all. rewrite fold_left_app. reflexivity. }
  rewrite Hall.
  assert (H0 : size (v_clear (buf p)) <= capacity (v_clear (buf p)))
    by (simpl; lia).
  assert (Hcap : 2 + List.length (f :: fs) < capacity (buf p)).
  { unfold capacity. apply nth_error_Some. rewrite Hnul. discriminate. }
  destruct (push_all_spec uninit (["0"; "."]%char ++ f :: fs)
              (v_clear (buf p)) H0) as (_ & _ & F1 & K1).
  simpl size in F1, K1. simpl firstn in F1. simpl List.length in F1, K1.
  assert (Hstr : c_str (v_data_read uninit
                          (push_all uninit
                             (["0"; "."]%char ++ f :: fs) (v_clear (buf p))))
                 = "0"%char :: "."%char :: f :: fs).
  { unfold v_data_read, v_data. apply c_str_block_behind.
    - constructor; [reflexivity |]. constructor; [reflexivity |].
      apply digit_not_NUL. exact Hfs.
    - exact F1.
    - simpl List.length. rewrite K1.
      + exact Hnul.
      + unfold capacity in *. simpl. simpl in Hcap. lia.
      + lia. }
  rewrite <- atof_c_str, Hstr, atof_fraction by (assumption || discriminate).
  split; reflexivity.
Qed.

Lemma decimal_literal_value_witness :
  fst (getToken zeroed
         (mkParser (list_ascii_of_string "12.25*x") (Tok T_END)
                   (v_reserve zeroed 80 v_empty) []))
  = Ok (TokReal T_NUMBER
          (double_of_int (decimal (list_ascii_of_string "12"))
           + round_dec (decimal (list_ascii_of_string "25")) (-2))%float) /\
  data (snd (getToken zeroed
         (mkParser (list_ascii_of_string "12.25*x") (Tok T_END)
                   (v_reserve zeroed 80 v_empty) [])))
  = list_ascii_of_string "*x".
Proof.
  apply (@decimal_literal_value zeroed
           (mkParser (list_ascii_of_string "12.25*x") (Tok T_END)
                     (v_reserve zeroed 80 v_empty) [])
           (list_ascii_of_string "12") (list_ascii_of_string "25")
           (list_ascii_of_string "*x")).
  - discriminate.
  - discriminate.
  - repeat constructor.
  - repeat constructor.
  - reflexivity.
  - vm_compute. reflexivity.
  - reflexivity.
  - reflexivity.
Defined.

(** ** The cursor only moves forward *)

Lemma is_suffix_refl d : is_suffix d d.
Proof. exists []. split; [reflexivity | constructor]. Qed.

Lemma is_suffix_cons c d' d :
  lexicon c = true -> is_suffix d' d -> is_suffix d' (c :: d).
Proof.
  intros Hc (pre & -> & Hpre). exists (c :: pre).
  split; [reflexivity | constructor; assumption].
Qed.

Lemma is_suffix_trans d1 d2 d3 :
  is_suffix d1 d2 -> is_suffix d2 d3 -> is_suffix d1 d3.
Proof.
  intros (pre1 & -> & H1) (pre2 & -> & H2). exists (pre2 ++ pre1).
  split; [rewrite app_assoc; reflexivity | apply Forall_app; auto].
Qed.

Lemma is_suffix_length d' d :
  is_suffix d' d -> List.length d' <= List.length d.
Proof. intros (pre & -> & _). rewrite length_app. lia. Qed.

Lemma lexicon_space c : isspace c = true -> lexicon c = true.
Proof. intros H. unfold lexicon. rewrite H. reflexivity. Qed.

Lemma lexicon_digit c : isdigit c = true -> lexicon c = true.
Proof.
  intros H. unfold lexicon. rewrite H.
  rewrite orb_true_r. reflexivity.
Qed.

Lemma lexicon_alpha c : isalpha c = true -> lexicon c = true.
Proof.
  intros H. unfold lexicon. rewrite H.
  rewrite !orb_true_r. reflexivity.
Qed.

Lemma lexicon_x c : is_char (tolower c) "x" = true -> lexicon c = true.
Proof.
  destruct c as [[] [] [] [] [] [] [] []]; vm_compute; intros H;
    try discriminate H; reflexivity.
Qed.

Lemma lexicon_delim c index :
  find_index Ascii.eqb c delims = Some index -> lexicon c = true.
Proof.
  intros H. unfold lexicon.
  assert (E : existsb (Ascii.eqb c) delims = true).
  { revert index H. generalize delims. intros l.
    induction l as [| y l IH]; simpl; intros index H; [discriminate H |].
    destruct (Ascii.eqb y c) eqn:Ey.
    - apply Ascii.eqb_eq in Ey. subst y. rewrite Ascii.eqb_refl. reflexivity.
    - destruct (find_index Ascii.eqb c l) as [j |]; [| discriminate H].
      rewrite (IH j eq_refl). apply orb_true_r. }
  rewrite E. apply orb_true_r.
Qed.

Section CursorFacts.

Variable uninit : memory.

Lemma number_digits_suffix n d : is_suffix (snd (number_digits n d)) d.
Proof.
  revert n. induction d as [| c d IH]; simpl; intros n.
  - apply is_suffix_refl.
  - destruct (isdigit c) eqn:E; [| apply is_suffix_refl].
    apply is_suffix_cons; [apply lexicon_digit, E | apply IH].
Qed.

Lemma fraction_digits_suffix d b :
  is_suffix (fst (fraction_digits uninit d b)) d.
Proof.
  revert b. induction d as [| c d IH]; simpl; intros b.
  - apply is_suffix_refl.
  - destruct (isdigit c) eqn:E; [| apply is_suffix_refl].
    apply is_suffix_cons; [apply lexicon_digit, E | apply IH].
Qed.

Lemma name_letters_suffix d b :
  is_suffix (fst (name_letters uninit d b)) d.
Proof.
  revert b. induction d as [| c d IH]; simpl; intros b.
  - apply is_suffix_refl.
  - destruct (isalpha c) eqn:E; [| apply is_suffix_refl].
    apply is_suffix_cons; [apply lexicon_alpha, E | apply IH].
Qed.

Lemma TS_NUMBER_suffix n d p :
  is_suffix (data (snd (TS_NUMBER uninit n d p))) d.
Proof.
  unfold TS_NUMBER.
  pose proof (number_digits_suffix n d) as Hn.
  destruct (number_digits n d) as [n1 d1]; simpl in Hn.
  destruct (is_char (peek d1) ".") eqn:Edot.
  - assert (Ht : is_suffix (tl d1) d).
    { eapply is_suffix_trans; [| exact Hn].
      destruct d1 as [| c d1]; [discriminate Edot |]. simpl in *.
      apply is_suffix_cons; [| apply is_suffix_refl].
      unfold lexicon. rewrite Edot. rewrite !orb_true_r. reflexivity. }
    destruct (negb (isdigit (peek (tl d1)))); [exact Ht |].
    pose proof (fraction_digits_suffix (tl d1)
      (v_push_back uninit "." (v_push_back uninit "0" (v_clear (buf p)))))
      as Hf.
    destruct (fraction_digits uninit (tl d1) _) as [d3 b']; simpl in *.
    eapply is_suffix_trans; [exact Hf | exact Ht].
  - exact Hn.
Qed.

Lemma TS_FUNCNAME_suffix d p :
  is_suffix (data (snd (TS_FUNCNAME uninit d p))) d.
Proof.
  unfold TS_FUNCNAME.
  pose proof (name_letters_suffix d (v_clear (buf p))) as Hn.
  destruct (name_letters uninit d _) as [d1 b]; simpl in Hn.
  destruct (find_index String.eqb _ funcnames); exact Hn.
Qed.

Lemma TS_DELIM_suffix d p : is_suffix (data (snd (TS_DELIM d p))) d.
Proof.
  unfold TS_DELIM.
  destruct (find_index Ascii.eqb (peek d) delims) as [index |] eqn:E;
    simpl; [| apply is_suffix_refl].
  destruct d as [| c d]; [discriminate E |]. simpl in *.
  apply is_suffix_cons; [| apply is_suffix_refl].
  eapply lexicon_delim. exact E.
Qed.

Lemma TS_INITIAL_suffix d p :
  is_suffix (data (snd (TS_INITIAL uninit d p))) d.
Proof.
  induction d as [| c d IH]; simpl.
  - apply is_suffix_refl.
  - destruct (isspace c) eqn:Es;
      [apply is_suffix_cons; [apply lexicon_space, Es | apply IH] |].
    destruct (is_char (tolower c) "x") eqn:Ex;
      [apply is_suffix_cons; [apply lexicon_x, Ex | apply is_suffix_refl] |].
    destruct (isdigit c) eqn:Ed;
      [apply is_suffix_cons;
       [apply lexicon_digit, Ed | apply TS_NUMBER_suffix] |].
    destruct (isalpha c); [apply TS_FUNCNAME_suffix |].
    destruct (is_char c NUL); [apply is_suffix_refl |].
    apply TS_DELIM_suffix.
Qed.

(** An END token comes out only at the terminator, and leaves everything
    but the cursor as it was. *)
Lemma TS_INITIAL_END d p t p' :
  TS_INITIAL uninit d p = (Ok t, p') ->
  type t = T_END ->
  t = Tok T_END /\ peek (data p') = NUL /\ p' = set_data (data p') p.
Proof.
  revert p'. induction d as [| c d IH]; simpl; intros p' H Ht.
  - injection H as <- <-. auto.
  - destruct (isspace c); [apply IH; assumption |].
    destruct (is_char (tolower c) "x");
      [injection H as <- <-; discriminate Ht |].
    destruct (isdigit c).
    { unfold TS_NUMBER in H.
      destruct (number_digits (digit_val c) d) as [n1 d1].
      destruct (is_char (peek d1) ".").
      - destruct (negb (isdigit (peek (tl d1)))); [discriminate H |].
        destruct (fraction_digits uninit (tl d1) _) as [d3 b'].
        injection H as <- <-. discriminate Ht.
      - injection H as <- <-. discriminate Ht. }
    destruct (isalpha c).
    { unfold TS_FUNCNAME in H.
      destruct (name_letters uninit (c :: d) _) as [d1 b].
      destruct (find_index String.eqb _ funcnames);
        [injection H as <- <-; discriminate Ht | discriminate H]. }
    destruct (is_char c NUL) eqn:En.
    { injection H as <- <-. simpl.
      apply Ascii.eqb_eq in En. auto. }
    unfold TS_DELIM in H. change (peek (c :: d)) with c in H.
    destruct (find_index Ascii.eqb c delims) as [index |] eqn:Ef;
      [| discriminate H].
    injection H as <- <-. apply find_index_lt in Ef. simpl in Ef, Ht.
    exfalso. revert Ht.
    do 7 (destruct index as [| index]; [discriminate |]). lia.
Qed.

End CursorFacts.

(** What [getToken] guarantees. *)
Lemma getToken_post uninit p :
  fst (getToken uninit p) <> OutOfFuel /\
  rpn (snd (getToken uninit p)) = rpn p /\
  token (snd (getToken uninit p)) = token p /\
  is_suffix (data (snd (getToken uninit p))) (data p) /\
  forall t, fst (getToken uninit p) = Ok t ->
    tok_ok t /\
    (type t <> T_END ->
     List.length (data (snd (getToken uninit p))) < List.length (data p)) /\
    (type t = T_END -> t = Tok T_END /\ at_end (snd (getToken uninit p))).
Proof.
  unfold getToken.
  destruct (TS_INITIAL_spec uninit (data p) p) as (H1 & H2 & _ & H4 & H5).
  repeat split; try assumption.
  - apply TS_INITIAL_suffix.
  - apply (H5 t H).
  - apply (H5 t H).
  - destruct (TS_INITIAL uninit (data p) p) as [r q] eqn:E.
    simpl in H. subst r.
    apply (TS_INITIAL_END _ _ _ E H0).
  - destruct (TS_INITIAL uninit (data p) p) as [r q] eqn:E.
    simpl in H. subst r. unfold at_end. simpl.
    apply (TS_INITIAL_END _ _ _ E H0).
Qed.

(** X3.  Once [getToken] has returned END, calling it again returns END
    again and changes nothing. *)
Theorem getToken_END_idempotent uninit p t p' :
  getToken uninit p = (Ok t, p') ->
  type t = T_END ->
  getToken uninit p' = (Ok (Tok T_END), p').
Proof.
  unfold getToken. intros H Ht.
  destruct (TS_INITIAL_END _ _ _ H Ht) as (_ & Hpeek & Hp').
  destruct p' as [d' t' b' r']. simpl in *.
  destruct d' as [| c d'']; simpl.
  - reflexivity.
  - simpl in Hpeek. subst c. reflexivity.
Qed.

Lemma getToken_END_idempotent_witness :
  getToken zeroed (snd (getToken zeroed
     (mkParser (list_ascii_of_string "  ") (Tok T_X) v_empty [])))
  = (Ok (Tok T_END),
     snd (getToken zeroed
            (mkParser (list_ascii_of_string "  ") (Tok T_X) v_empty []))).
Proof.
  apply (@getToken_END_idempotent zeroed
           (mkParser (list_ascii_of_string "  ") (Tok T_X) v_empty [])
           (Tok T_END)).
  - reflexivity.
  - reflexivity.
Defined.

(** X2.  [getToken] leaves the program and the lookahead alone and never
    moves the cursor back: what it skips are characters of the lexicon; a
    token other than END costs at least one character, a FUNCTION token
    carries an index of the table, and END only comes out as the plain
    token at the terminator. *)
Theorem getToken_contract uninit p :
  fst (getToken uninit p) <> OutOfFuel /\
  rpn (snd (getToken uninit p)) = rpn p /\
  token (snd (getToken uninit p)) = token p /\
  is_suffix (data (snd (getToken uninit p))) (data p) /\
  forall t, fst (getToken uninit p) = Ok t ->
    tok_ok t /\
    (type t <> T_END ->
     List.length (data (snd (getToken uninit p))) < List.length (data p)) /\
    (type t = T_END -> t = Tok T_END /\ at_end (snd (getToken uninit p))).
Proof. apply getToken_post. Qed.

Lemma getToken_contract_witness :
  tok_ok (TokInt T_FUNC 4) /\
  List.length
    (data (snd (getToken zeroed
       (mkParser (list_ascii_of_string "arcsin(x)") (Tok T_END) v_empty []))))
  < List.length
      (data (mkParser (list_ascii_of_string "arcsin(x)") (Tok T_END)
                      v_empty [])).
Proof.
  destruct (proj2 (proj2 (proj2 (proj2
              (getToken_contract zeroed
                 (mkParser (list_ascii_of_string "arcsin(x)") (Tok T_END)
                           v_empty [])))))
              (TokInt T_FUNC 4) eq_refl) as (Hok & Hlt & _).
  split; [exact Hok |]. apply Hlt. discriminate.
Defined.

(** ** Termination *)

(** X1.  [parse] returns on every input: the descent never needs more
    than 6 * length + 10 nested calls, and a larger bound gives the same
    result and the same object. *)
Theorem parse_terminates uninit s p :
  (exists b p', parse uninit s p = (Ok b, p')) /\
  (forall f, parse_fuel s <= f -> parse_with uninit f s p = parse uninit s p).
Proof.
  split.
  - apply parse_fuel_enough.
  - intros f Hf. apply parse_with_more_fuel. exact Hf.
Qed.

Lemma parse_terminates_witness :
  parse_with zeroed 1000 "((x+1)*2)^3" new_parser
  = parse zeroed "((x+1)*2)^3" new_parser.
Proof.
  apply (proj2 (parse_terminates zeroed "((x+1)*2)^3" new_parser)).
  vm_compute. lia.
Defined.

(** ** Blanks *)

Lemma TS_INITIAL_blanks uninit ws d p :
  Forall (fun c => isspace c = true) ws ->
  TS_INITIAL uninit (ws ++ d) p = TS_INITIAL uninit d p.
Proof.
  induction ws as [| c ws IH]; intros Hws.
  - reflexivity.
  - inversion Hws as [| c' ws' Hc Hws']; subst.
    simpl. rewrite Hc. apply IH. exact Hws'.
Qed.

Lemma list_ascii_of_string_app s1 s2 :
  list_ascii_of_string (s1 ++ s2)
  = list_ascii_of_string s1 ++ list_ascii_of_string s2.
Proof.
  induction s1 as [| c s1 IH]; simpl; [reflexivity |].
  rewrite IH. reflexivity.
Qed.

Lemma parse_with_blanks uninit f ws s p :
  Forall (fun c => isspace c = true) (list_ascii_of_string ws) ->
  parse_with uninit f (ws ++ s) p = parse_with uninit f s p.
Proof.
  intros Hws. unfold parse_with, parse_body, nextToken, getToken.
  unfold bind. simpl data.
  rewrite list_ascii_of_string_app, TS_INITIAL_blanks by exact Hws.
  set (p1 := mkParser (list_ascii_of_string ws ++ list_ascii_of_string s)
                      (token p) (v_reserve uninit 80 v_empty) []).
  set (p2 := mkParser (list_ascii_of_string s)
                      (token p) (v_reserve uninit 80 v_empty) []).
  assert (H : TS_INITIAL uninit (list_ascii_of_string s) p1
              = TS_INITIAL uninit (list_ascii_of_string s) p2).
  { generalize (list_ascii_of_string s). intros d.
    induction d as [| c d IH]; simpl.
    - reflexivity.
    - destruct (isspace c); [exact IH |]. reflexivity. }
  rewrite H. reflexivity.
Qed.

Lemma parse_leading_blanks uninit ws s p :
  Forall (fun c => isspace c = true) (list_ascii_of_string ws) ->
  parse uninit (ws ++ s) p = parse uninit s p.
Proof.
  intros Hws. unfold parse at 1.
  rewrite parse_with_blanks by exact Hws.
  apply parse_with_more_fuel. unfold parse_fuel.
  rewrite <- !length_list_ascii_of_string, list_ascii_of_string_app,
    length_app. lia.
Qed.

(** X8.  Blanks in front of the input change nothing: [parse] returns
    the same result and leaves the same object. *)
Theorem leading_blanks_ignored uninit ws s p :
  Forall (fun c => isspace c = true) (list_ascii_of_string ws) ->
  parse uninit (ws ++ s) p = parse uninit s p.
Proof. apply parse_leading_blanks. Qed.

Lemma leading_blanks_ignored_witness :
  parse zeroed ("  " ++ "2(x+1)") new_parser
  = parse zeroed "2(x+1)" new_parser.
Proof.
  apply (@leading_blanks_ignored zeroed "  "%string "2(x+1)"%string
           new_parser).
  repeat constructor.
Defined.

Lemma append_empty ws : (ws ++ "")%string = ws.
Proof. induction ws as [| c ws IH]; simpl; [| rewrite IH]; reflexivity. Qed.

(** X15.  An input without anything but blanks, the empty input included,
    is rejected: [parse] returns false and leaves the program empty, so
    that [evaluate] returns 0.0. *)
Theorem blank_input_rejected uninit ws p :
  Forall (fun c => isspace c = true) (list_ascii_of_string ws) ->
  parse_result uninit ws p = Ok false /\
  rpn (parse_state uninit ws p) = [] /\
  forall m x, evaluate m (parse_state uninit ws p) x = Some zero.
Proof.
  intros Hws. unfold parse_result, parse_state.
  rewrite <- (append_empty ws), parse_leading_blanks by exact Hws.
  repeat split.
Qed.

Lemma blank_input_rejected_witness :
  parse_result zeroed "   " new_parser = Ok false /\
  rpn (parse_state zeroed "   " new_parser) = [] /\
  forall m x, evaluate m (parse_state zeroed "   " new_parser) x = Some zero.
Proof.
  apply (@blank_input_rejected zeroed "   "%string new_parser).
  repeat constructor.
Defined.

(** ** What every grammar function preserves *)

Section Preservation.

Variable uninit : memory.
Variable R : ArithmeticParser -> ArithmeticParser -> Prop.

Hypothesis R_refl : forall p, R p p.
Hypothesis R_trans : forall p q r, R p q -> R q r -> R p r.
Hypothesis R_nextToken : preserves R (nextToken uninit).
Hypothesis R_push_back : forall t, preserves R (rpn_push_back t).

Lemma preserves_bind {A B : Type} (m : M A) (k : A -> M B) :
  preserves R m -> (forall a, preserves R (k a)) -> preserves R (bind m k).
Proof.
  intros Hm Hk p b q H. apply bind_Ok in H.
  destruct H as (a & p1 & H1 & H2).
  eapply R_trans; [eapply Hm; exact H1 | eapply Hk; exact H2].
Qed.

Lemma preserves_ret {A : Type} (a : A) : preserves R (ret a).
Proof. intros p b q H. injection H as _ <-. apply R_refl. Qed.

Lemma preserves_throw {A : Type} e : preserves R (@throw A e).
Proof. intros p b q H. discriminate H. Qed.

Lemma preserves_out_of_fuel {A : Type} : preserves R (@out_of_fuel A).
Proof. intros p b q H. discriminate H. Qed.

Lemma preserves_get_token : preserves R get_token.
Proof. intros p b q H. injection H as _ <-. apply R_refl. Qed.

Lemma preserves_expectToken t : preserves R (expectToken t).
Proof.
  intros p b q H. apply expectToken_Ok in H. destruct H as [-> _].
  apply R_refl.
Qed.

Ltac preserves_tac :=
  repeat first
    [ assumption
    | apply preserves_ret | apply preserves_throw
    | apply preserves_get_token | apply preserves_expectToken
    | apply R_nextToken | apply R_push_back
    | apply preserves_bind; [| intros ?]
    | match goal with
      | |- preserves _ (if ?c then _ else _) => destruct c
      end ].

(** A relation that [nextToken] and [push_back] preserve is preserved by
    the whole descent. *)
Lemma grammar_preserves f :
  preserves R (EXPR uninit f) /\
  preserves R (EXPR_while uninit f) /\
  preserves R (EXPR2 uninit f) /\
  preserves R (EXPR2_while uninit f) /\
  preserves R (EXPR3 uninit f) /\
  preserves R (EXPR4 uninit f).
Proof.
  induction f as [| f (IH1 & IHw1 & IH2 & IHw2 & IH3 & IH4)].
  - repeat split; apply preserves_out_of_fuel.
  - repeat split; simpl; preserves_tac.
Qed.

Lemma parse_body_preserves f : preserves R (parse_body uninit f).
Proof.
  unfold parse_body.
  apply preserves_bind; [apply R_nextToken | intros _].
  apply preserves_bind; [apply (grammar_preserves f) | intros _].
  apply preserves_expectToken.
Qed.

End Preservation.

(** ** A successful parse has read its input *)

Lemma read_on_nextToken uninit : preserves read_on (nextToken uninit).
Proof.
  intros p a q H. unfold nextToken, bind in H.
  pose proof (getToken_post uninit p) as (_ & _ & _ & Hsuf & Htok).
  destruct (getToken uninit p) as [[t | e |] p1]; try discriminate H.
  injection H as _ <-. simpl in *.
  split; [exact Hsuf |].
  intros _ Hend. simpl in Hend.
  destruct (Htok t eq_refl) as (_ & _ & He).
  apply (He Hend).
Qed.

Lemma read_on_parse_body uninit f : preserves read_on (parse_body uninit f).
Proof.
  apply parse_body_preserves.
  - intros p. split; [apply is_suffix_refl | auto].
  - intros p q r [S1 L1] [S2 L2].
    split; [eapply is_suffix_trans; eassumption | auto].
  - apply read_on_nextToken.
  - intros t p a q H. apply rpn_push_back_Ok in H. subst q.
    split; [apply is_suffix_refl | auto].
Qed.

Lemma at_end_no_NUL d' d :
  is_suffix d' d -> peek d' = NUL ->
  Forall (fun c => is_char c NUL = false) d -> d' = [].
Proof.
  intros (pre & -> & _) Hp Hall. destruct d' as [| c d'']; [reflexivity |].
  simpl in Hp. subst c.
  apply Forall_app in Hall. destruct Hall as [_ Hall].
  inversion Hall as [| c' l Hc _]; subst. discriminate Hc.
Qed.

(** X9.  When [parse] returns true the lookahead is END and the cursor
    rests on the terminator, everything before it having been read; for an
    input without an embedded NUL, nothing is left and every character of
    the input belongs to the lexicon. *)
Theorem parse_true_reads_input uninit s p p' :
  parse uninit s p = (Ok true, p') ->
  type (token p') = T_END /\ at_end p' /\
  is_suffix (data p') (list_ascii_of_string s) /\
  (Forall (fun c => is_char c NUL = false) (list_ascii_of_string s) ->
   data p' = [] /\
   Forall (fun c => lexicon c = true) (list_ascii_of_string s)).
Proof.
  unfold parse, parse_with.
  set (p0 := mkParser (list_ascii_of_string s) (token p)
                      (v_reserve uninit 80 v_empty) []).
  destruct (parse_body uninit (parse_fuel s) p0) as [[a | e |] q] eqn:E;
    intros H; try discriminate H.
  injection H as <-.
  assert (Hend : type (token q) = T_END).
  { unfold parse_body in E.
    apply bind_Ok in E. destruct E as (a1 & q1 & _ & E).
    apply bind_Ok in E. destruct E as (a2 & q2 & _ & E).
    apply expectToken_Ok in E. destruct E as [<- Ht]. exact Ht. }
  assert (Hlexed : lexed q).
  { unfold parse_body in E.
    apply bind_Ok in E. destruct E as (a1 & q1 & H1 & E).
    assert (L1 : lexed q1).
    { intros Hq1. unfold nextToken, bind in H1.
      pose proof (getToken_post uninit p0) as (_ & _ & _ & _ & Htok).
      destruct (getToken uninit p0) as [[t | e |] p1]; try discriminate H1.
      injection H1 as _ <-. simpl in *.
      apply (Htok t eq_refl). exact Hq1. }
    assert (Hrest : preserves read_on
              (EXPR uninit (parse_fuel s);; expectToken T_END)).
    { apply preserves_bind.
      - intros x y z [S1 L1'] [S2 L2].
        split; [eapply is_suffix_trans; eassumption | auto].
      - apply grammar_preserves.
        + intros x. split; [apply is_suffix_refl | auto].
        + intros x y z [S1 L1'] [S2 L2].
          split; [eapply is_suffix_trans; eassumption | auto].
        + apply read_on_nextToken.
        + intros t x b y H. apply rpn_push_back_Ok in H. subst y.
          split; [apply is_suffix_refl | auto].
      - intros _. apply preserves_expectToken.
        intros x. split; [apply is_suffix_refl | auto]. }
    apply (Hrest _ _ _ E). exact L1. }
  pose proof (@read_on_parse_body uninit (parse_fuel s) _ _ _ E)
    as [Hsuf _]. simpl in Hsuf.
  split; [exact Hend |]. split; [exact (Hlexed Hend) |].
  split; [exact Hsuf |].
  intros Hall.
  assert (Hnil : data q = [])
    by (eapply at_end_no_NUL;
        [exact Hsuf | exact (Hlexed Hend) | exact Hall]).
  split; [exact Hnil |].
  destruct Hsuf as (pre & Hpre & Hlex).
  rewrite Hpre, Hnil, app_nil_r. exact Hlex.
Qed.

Lemma parse_true_reads_input_witness :
  type (token (parse_state zeroed "3x " new_parser)) = T_END /\
  at_end (parse_state zeroed "3x " new_parser) /\
  is_suffix (data (parse_state zeroed "3x " new_parser))
            (list_ascii_of_string "3x ") /\
  (Forall (fun c => is_char c NUL = false) (list_ascii_of_string "3x ") ->
   data (parse_state zeroed "3x " new_parser) = [] /\
   Forall (fun c => lexicon c = true) (list_ascii_of_string "3x ")).
Proof.
  apply (@parse_true_reads_input zeroed "3x "%string new_parser
           (parse_state zeroed "3x " new_parser)).
  vm_compute. reflexivity.
Defined.

(** ** The evaluator *)

Lemma eval_step_frame m x t nums nums' below :
  eval_step m x t nums = Some nums' ->
  eval_step m x t (nums ++ below) = Some (nums' ++ below).
Proof.
  unfold eval_step, apply_op.
  destruct (type t); intros H;
    try (injection H as <-; reflexivity);
    destruct nums as [| op2 nums]; try discriminate H; simpl in *;
    try (destruct (nth_error (functions m) (intValue t));
         [injection H as <-; reflexivity | discriminate H]);
    try (injection H as <-; reflexivity);
    destruct nums as [| op1 nums]; try discriminate H; simpl in *;
    injection H as <-; reflexivity.
Qed.

Lemma eval_loop_below m x code nums nums' below :
  eval_loop m x code nums = Some nums' ->
  eval_loop m x code (nums ++ below) = Some (nums' ++ below).
Proof.
  revert nums. induction code as [| t code IH]; simpl; intros nums H.
  - injection H as <-. reflexivity.
  - destruct (eval_step m x t nums) as [nums1 |] eqn:E; [| discriminate H].
    rewrite (eval_step_frame _ _ _ _ below E). apply IH. exact H.
Qed.

(** X10.  A program that runs on a stack without popping below it runs
    the same way on that stack with more values underneath, and leaves
    those values as they were. *)
Theorem eval_loop_frame m x code nums nums' below :
  eval_loop m x code nums = Some nums' ->
  eval_loop m x code (nums ++ below) = Some (nums' ++ below).
Proof. apply eval_loop_below. Qed.

Lemma eval_loop_frame_witness :
  eval_loop square_libm 2
    [Tok T_X; TokReal T_NUMBER 3; Tok T_MUL] ([] ++ [7; 8]%float)
  = Some ([6]%float ++ [7; 8]%float).
Proof.
  apply (@eval_loop_frame square_libm 2%float
           [Tok T_X; TokReal T_NUMBER 3; Tok T_MUL] [] [6%float]
           [7; 8]%float).
  vm_compute. reflexivity.
Defined.

(** X11.  After a successful [parse], the program computes the value that
    [evaluate] returns: run on any stack, it pushes that value and nothing
    else. *)
Theorem compiled_program_computes uninit s p p' m x :
  parse uninit s p = (Ok true, p') ->
  exists v, evaluate m p' x = Some v /\ computes m x (rpn p') v.
Proof.
  intros H. apply parse_true_pushes_one in H.
  destruct (H m x []) as [v Hv]. exists v. split.
  - unfold evaluate. rewrite Hv.
    destruct (rpn p'); [discriminate Hv | reflexivity].
  - intros nums. apply (eval_loop_below _ _ _ _ nums Hv).
Qed.

Lemma compiled_program_computes_witness :
  exists v,
    evaluate square_libm (parse_state zeroed "2(x+1)" new_parser) 3 = Some v /\
    computes square_libm 3 (rpn (parse_state zeroed "2(x+1)" new_parser)) v.
Proof.
  apply (@compiled_program_computes zeroed "2(x+1)"%string new_parser
           (parse_state zeroed "2(x+1)" new_parser)).
  vm_compute. reflexivity.
Defined.

Lemma computes_app m x a va rest nums :
  computes m x a va ->
  eval_loop m x (a ++ rest) nums = eval_loop m x rest (va :: nums).
Proof. intros Ha. rewrite eval_loop_app, Ha. reflexivity. Qed.

(** X12.  Postfix code composes: when [a] computes [va] and [b] computes
    [vb], [a b op] computes [va op vb] with the left operand first (so
    [va - vb], [va / vb], [pow(va, vb)]), [a NEGATE] computes [-va] and
    [a FUNC(i)] applies the [i]-th function of the table. *)
Theorem operators_compose m x a b va vb :
  computes m x a va -> computes m x b vb ->
  computes m x (a ++ b ++ [Tok T_PLUS]) (va + vb)%float /\
  computes m x (a ++ b ++ [Tok T_MINUS]) (va - vb)%float /\
  computes m x (a ++ b ++ [Tok T_MUL]) (va * vb)%float /\
  computes m x (a ++ b ++ [Tok T_DIV]) (va / vb)%float /\
  computes m x (a ++ b ++ [Tok T_POW]) (m_pow m va vb) /\
  computes m x (a ++ [Tok T_NEGATE]) (- va)%float /\
  (forall i f, nth_error (functions m) i = Some f ->
     computes m x (a ++ [TokInt T_FUNC i]) (f va)).
Proof.
  intros Ha Hb.
  repeat split; try (intros i f Hf); intros nums;
    repeat (rewrite (computes_app _ _ Ha) || rewrite (computes_app _ _ Hb));
    try reflexivity.
  simpl. unfold eval_step, apply_op. simpl. rewrite Hf. reflexivity.
Qed.

Lemma operators_compose_witness :
  computes square_libm 0
    ([TokReal T_NUMBER 7] ++ [TokReal T_NUMBER 2] ++ [Tok T_MINUS]) (7 - 2) /\
  computes square_libm 0
    ([TokReal T_NUMBER 7] ++ [TokReal T_NUMBER 2] ++ [Tok T_DIV]) (7 / 2).
Proof.
  assert (H7 : computes square_libm 0 [TokReal T_NUMBER 7] 7)
    by (intros nums; reflexivity).
  assert (H2 : computes square_libm 0 [TokReal T_NUMBER 2] 2)
    by (intros nums; reflexivity).
  pose proof (operators_compose H7 H2) as (_ & Hm & _ & Hd & _).
  split; assumption.
Defined.

(** ** Two runs side by side *)

Lemma tok_sim_refl t : tok_sim t t.
Proof. split; reflexivity. Qed.

Section Simulation.

Variables u u' : memory.
Variable TR : Token -> Token -> Prop.
Variable St : ArithmeticParser -> ArithmeticParser -> Prop.

Hypothesis TR_sim : forall t t', TR t t' -> tok_sim t t'.
Hypothesis TR_refl : forall t, TR t t.
Hypothesis St_token : forall p p', St p p' -> TR (token p) (token p').
Hypothesis St_push_back :
  forall t t' p p', TR t t' -> St p p' ->
    St (set_rpn (rpn p ++ [t]) p) (set_rpn (rpn p' ++ [t']) p').
Hypothesis St_nextToken : simulates any_unit St (nextToken u) (nextToken u').

Lemma sim_bind {A B : Type} (VR : A -> A -> Prop) (VR2 : B -> B -> Prop)
  (m m' : M A) (k k' : A -> M B) :
  simulates VR St m m' ->
  (forall a a', VR a a' -> simulates VR2 St (k a) (k' a')) ->
  simulates VR2 St (bind m k) (bind m' k').
Proof.
  intros Hm Hk p p' HSt. specialize (Hm p p' HSt).
  unfold sim_out, bind in *.
  destruct (m p) as [[a | e |] q]; destruct (m' p') as [[a' | e' |] q'];
    simpl in *; try contradiction; try exact I.
  destruct Hm as [Ha Hq]. apply (Hk a a' Ha q q' Hq).
Qed.

Lemma sim_ret : simulates any_unit St (ret tt) (ret tt).
Proof. intros p p' HSt. split; [exact I | exact HSt]. Qed.

Lemma sim_throw e e' : simulates any_unit St (throw e) (throw e').
Proof. intros p p' HSt. exact I. Qed.

Lemma sim_out_of_fuel : simulates any_unit St out_of_fuel out_of_fuel.
Proof. intros p p' HSt. exact I. Qed.

Lemma sim_get_token : simulates TR St get_token get_token.
Proof. intros p p' HSt. split; [apply St_token; exact HSt | exact HSt]. Qed.

Lemma sim_push_back t t' :
  TR t t' ->
  simulates any_unit St (rpn_push_back t) (rpn_push_back t').
Proof.
  intros Ht p p' HSt. split; [exact I |].
  apply St_push_back; assumption.
Qed.

Lemma sim_expectToken t :
  simulates any_unit St (expectToken t) (expectToken t).
Proof.
  unfold expectToken. eapply sim_bind; [apply sim_get_token |].
  intros a a' Ha. destruct (TR_sim Ha) as [Hty _]. rewrite <- Hty.
  destruct (token_t_eqb (type a) t); [apply sim_ret | apply sim_throw].
Qed.

Ltac sim_tac :=
  repeat first
    [ eassumption
    | apply sim_ret | apply sim_throw | apply sim_expectToken
    | apply St_nextToken
    | apply sim_push_back;
      first [ assumption | apply TR_refl ]
    | lazymatch goal with
      | |- simulates _ _ (bind get_token _) (bind get_token _) =>
          eapply sim_bind; [apply sim_get_token |];
          let tk := fresh "tk" in
          let tk' := fresh "tk'" in
          let Htk := fresh "Htk" in
          let Hty := fresh "Hty" in
          let Hint := fresh "Hint" in
          intros tk tk' Htk; pose proof (TR_sim Htk) as [Hty Hint];
          rewrite <- ?Hty, <- ?Hint;
          destruct (type tk); simpl
      | |- simulates _ _ (bind _ _) (bind _ _) =>
          eapply sim_bind; [| intros ? ? _]
      end ].

(** Two descents that read related lookaheads go the same way. *)
Lemma grammar_simulates f :
  simulates any_unit St (EXPR u f) (EXPR u' f) /\
  simulates any_unit St (EXPR_while u f) (EXPR_while u' f) /\
  simulates any_unit St (EXPR2 u f) (EXPR2 u' f) /\
  simulates any_unit St (EXPR2_while u f) (EXPR2_while u' f) /\
  simulates any_unit St (EXPR3 u f) (EXPR3 u' f) /\
  simulates any_unit St (EXPR4 u f) (EXPR4 u' f).
Proof.
  induction f as [| f (IH1 & IHw1 & IH2 & IHw2 & IH3 & IH4)].
  - repeat split; apply sim_out_of_fuel.
  - split; [| split; [| split; [| split; [| split]]]]; simpl; sim_tac.
Qed.

End Simulation.

(** ** What the contents of storage cannot change *)

Lemma alpha_span d :
  exists w rest,
    d = w ++ rest /\ Forall (fun c => isalpha c = true) w /\
    isalpha (peek rest) = false.
Proof.
  induction d as [| c d (w & rest & -> & Hw & Hrest)].
  - exists [], []. repeat split; auto.
  - destruct (isalpha c) eqn:E.
    + exists (c :: w), rest. repeat split; auto.
    + exists [], (c :: w ++ rest). repeat split; auto.
Qed.

Section Storage.

Variables u u' : memory.

Lemma fraction_digits_fst d b b' :
  fst (fraction_digits u d b) = fst (fraction_digits u' d b').
Proof.
  revert b b'. induction d as [| c d IH]; simpl; intros b b'.
  - reflexivity.
  - destruct (isdigit c); [apply IH | reflexivity].
Qed.

Lemma TS_NUMBER_storage n d p p' :
  lex_sim (TS_NUMBER u n d p) (TS_NUMBER u' n d p').
Proof.
  unfold TS_NUMBER, lex_sim.
  destruct (number_digits n d) as [n1 d1].
  destruct (is_char (peek d1) "."); [| simpl; split; [split |]; reflexivity].
  destruct (negb (isdigit (peek (tl d1)))); [exact I |].
  pose proof (fraction_digits_fst (tl d1)
    (v_push_back u "." (v_push_back u "0" (v_clear (buf p))))
    (v_push_back u' "." (v_push_back u' "0" (v_clear (buf p'))))) as Hf.
  destruct (fraction_digits u (tl d1) _) as [d3 b3].
  destruct (fraction_digits u' (tl d1) _) as [d3' b3'].
  simpl in *. split; [split; reflexivity | exact Hf].
Qed.

Lemma TS_FUNCNAME_storage d p p' :
  lex_sim (TS_FUNCNAME u d p) (TS_FUNCNAME u' d p').
Proof.
  destruct (alpha_span d) as (w & rest & -> & Hw & Hrest).
  unfold TS_FUNCNAME, lex_sim.
  rewrite !name_letters_run by assumption.
  rewrite !funcname_buffer by assumption.
  destruct (find_index String.eqb (string_of_list_ascii w) funcnames);
    simpl; [split; [split |]; reflexivity | exact I].
Qed.

Lemma TS_DELIM_storage d p p' : lex_sim (TS_DELIM d p) (TS_DELIM d p').
Proof.
  unfold TS_DELIM, lex_sim.
  destruct (find_index Ascii.eqb (peek d) delims);
    simpl; [split; [split |]; reflexivity | exact I].
Qed.

Lemma TS_INITIAL_storage d p p' :
  lex_sim (TS_INITIAL u d p) (TS_INITIAL u' d p').
Proof.
  induction d as [| c d IH]; simpl.
  - split; [split |]; reflexivity.
  - destruct (isspace c); [exact IH |].
    destruct (is_char (tolower c) "x"); [split; [split |]; reflexivity |].
    destruct (isdigit c); [apply TS_NUMBER_storage |].
    destruct (isalpha c); [apply TS_FUNCNAME_storage |].
    destruct (is_char c NUL); [split; [split |]; reflexivity |].
    apply TS_DELIM_storage.
Qed.

Lemma nextToken_storage p p' :
  same_input p p' ->
  sim_out any_unit same_shape (nextToken u p) (nextToken u' p').
Proof.
  intros [Hd Hr]. unfold nextToken, bind, sim_out.
  pose proof (getToken_post u p) as (_ & R1 & _).
  pose proof (getToken_post u' p') as (_ & R2 & _).
  pose proof (TS_INITIAL_storage (data p) p p') as Hsim.
  unfold getToken in *. rewrite <- Hd in *. unfold lex_sim in Hsim.
  destruct (TS_INITIAL u (data p) p) as [[t | e |] q];
    destruct (TS_INITIAL u' (data p) p') as [[t' | e' |] q'];
    simpl in *; try contradiction; try exact I.
  destruct Hsim as [Ht Hdq].
  split; [exact I |]. split; [split |]; simpl; try assumption.
  rewrite R1, R2. exact Hr.
Qed.

Lemma same_shape_grammar f :
  simulates any_unit same_shape (EXPR u f) (EXPR u' f).
Proof.
  apply grammar_simulates with (TR := tok_sim).
  - auto.
  - apply tok_sim_refl.
  - intros p p' [_ Ht]. exact Ht.
  - intros t t' p p' Ht [[Hd Hr] Htok].
    split; [split |]; simpl; try assumption.
    apply Forall2_app; [exact Hr | constructor; [exact Ht | constructor]].
  - intros p p' [Hin _]. apply nextToken_storage. exact Hin.
Qed.

End Storage.

Lemma parse_body_storage u u' f p p' :
  same_input p p' ->
  sim_out any_unit same_shape (parse_body u f p) (parse_body u' f p').
Proof.
  intros H0. unfold parse_body.
  pose proof (nextToken_storage u u' H0) as H1.
  assert (H2 : simulates any_unit same_shape
                 (EXPR u f;; expectToken T_END)
                 (EXPR u' f;; expectToken T_END)).
  { eapply sim_bind; [apply same_shape_grammar |].
    intros _ _ _. apply sim_expectToken with (TR := tok_sim); auto.
    intros x x' [_ Ht]. exact Ht. }
  set (k := EXPR u f;; expectToken T_END) in *.
  set (k' := EXPR u' f;; expectToken T_END) in *.
  unfold sim_out in H1. unfold bind.
  destruct (nextToken u p) as [[a | e |] q];
    destruct (nextToken u' p') as [[a' | e' |] q'];
    simpl in H1; try contradiction; try exact I.
  destruct H1 as [_ Hq]. apply (H2 q q' Hq).
Qed.

(** X13.  Neither the contents of freshly reserved storage nor the object
    [parse] is called on can change whether an input is accepted, nor the
    kinds and function indices of the compiled instructions; only the
    values carried by NUMBER tokens can depend on them. *)
Theorem acceptance_independent_of_storage u u' s p p' :
  parse_result u s p = parse_result u' s p' /\
  Forall2 tok_sim (rpn (parse_state u s p)) (rpn (parse_state u' s p')).
Proof.
  unfold parse_result, parse_state, parse, parse_with.
  set (p0 := mkParser (list_ascii_of_string s) (token p)
                      (v_reserve u 80 v_empty) []).
  set (p0' := mkParser (list_ascii_of_string s) (token p')
                       (v_reserve u' 80 v_empty) []).
  assert (H0 : same_input p0 p0') by (split; [reflexivity | constructor]).
  pose proof (parse_body_storage u u' (parse_fuel s) H0) as H1.
  pose proof (@parse_body_halts u s p0 eq_refl) as T1.
  pose proof (@parse_body_halts u' s p0' eq_refl) as T2.
  unfold sim_out, halts in *.
  destruct (parse_body u (parse_fuel s) p0) as [[a | e |] q];
    destruct (parse_body u' (parse_fuel s) p0') as [[a' | e' |] q'];
    simpl in *; try contradiction; try (contradiction T1; reflexivity).
  - destruct H1 as [_ [[_ Hr] _]]. auto.
  - split; [reflexivity | constructor].
Qed.

(** ** The variable in upper case *)

Lemma fold_x_class c :
  isspace (fold_x c) = isspace c /\
  is_char (tolower (fold_x c)) "x" = is_char (tolower c) "x" /\
  isdigit (fold_x c) = isdigit c /\
  isalpha (fold_x c) = isalpha c /\
  is_char (fold_x c) NUL = is_char c NUL /\
  is_char (fold_x c) "." = is_char c "." /\
  find_index Ascii.eqb (fold_x c) delims = find_index Ascii.eqb c delims /\
  (is_char (tolower c) "x" = false -> fold_x c = c).
Proof.
  destruct c as [[] [] [] [] [] [] [] []]; vm_compute;
    repeat split; intros H; discriminate H.
Qed.

Lemma fold_x_digit c : isdigit c = true -> fold_x c = c.
Proof.
  intros H. apply fold_x_class. apply (isdigit_class c H).
Qed.

Lemma peek_fold d : peek (map fold_x d) = fold_x (peek d).
Proof. destruct d; reflexivity. Qed.

Lemma tl_fold d : tl (map fold_x d) = map fold_x (tl d).
Proof. destruct d; reflexivity. Qed.

Lemma find_index_In x l i :
  find_index String.eqb x l = Some i -> In x l.
Proof.
  revert i. induction l as [| y l IH]; simpl; intros i H; [discriminate H |].
  destruct (String.eqb y x) eqn:E.
  - left. apply String.eqb_eq. exact E.
  - destruct (find_index String.eqb x l) as [j |]; [| discriminate H].
    right. apply (IH j). reflexivity.
Qed.

(** No name of the table contains the variable, in either case. *)
Lemma funcnames_without_x name :
  In name funcnames ->
  Forall (fun c => is_char (tolower c) "x" = false)
         (list_ascii_of_string name).
Proof.
  intros Hin. simpl in Hin.
  repeat (destruct Hin as [<- | Hin]; [repeat constructor |]).
  contradiction Hin.
Qed.

Lemma fold_x_fixed w :
  Forall (fun c => is_char (tolower c) "x" = false) w -> map fold_x w = w.
Proof.
  induction 1 as [| c w Hc _ IH]; simpl; [reflexivity |].
  rewrite IH. f_equal. apply fold_x_class. exact Hc.
Qed.

Lemma fold_x_no_x w :
  Forall (fun c => is_char (tolower c) "x" = false) (map fold_x w) ->
  Forall (fun c => is_char (tolower c) "x" = false) w.
Proof.
  induction w as [| c w IH]; simpl; intros H; [constructor |].
  inversion H as [| c' w' Hc Hw]; subst.
  constructor; [| apply IH; exact Hw].
  destruct (fold_x_class c) as (_ & Hx & _). rewrite <- Hx. exact Hc.
Qed.

(** A run of letters names a function in one spelling when it does in the
    other, and then the two spellings are one. *)
Lemma funcname_fold w :
  let i := find_index String.eqb (string_of_list_ascii w) funcnames in
  let i' := find_index String.eqb (string_of_list_ascii (map fold_x w))
                       funcnames in
  i' = i /\ (i <> None -> map fold_x w = w).
Proof.
  cbv zeta.
  destruct (find_index String.eqb (string_of_list_ascii w) funcnames)
    as [i |] eqn:E.
  - pose proof E as Hin.
    apply find_index_In, funcnames_without_x in Hin.
    rewrite list_ascii_of_string_of_list_ascii in Hin.
    rewrite (fold_x_fixed Hin).
    split; [exact E | auto].
  - split; [| intros H; contradiction H; reflexivity].
    destruct (find_index String.eqb (string_of_list_ascii (map fold_x w))
                funcnames) as [i' |] eqn:E'; [| reflexivity].
    pose proof E' as Hin.
    apply find_index_In, funcnames_without_x in Hin.
    rewrite list_ascii_of_string_of_list_ascii in Hin.
    apply fold_x_no_x in Hin. rewrite (fold_x_fixed Hin) in E'.
    congruence.
Qed.

Section UpperCaseX.

Variable u : memory.

Lemma number_digits_fold n d :
  number_digits n (map fold_x d)
  = (fst (number_digits n d), map fold_x (snd (number_digits n d))).
Proof.
  revert n. induction d as [| c d IH]; simpl; intros n; [reflexivity |].
  destruct (fold_x_class c) as (_ & _ & Hd & _). rewrite Hd.
  destruct (isdigit c) eqn:E; [| reflexivity].
  rewrite (fold_x_digit c E). apply IH.
Qed.

Lemma fraction_digits_fold d b :
  fraction_digits u (map fold_x d) b
  = (map fold_x (fst (fraction_digits u d b)), snd (fraction_digits u d b)).
Proof.
  revert b. induction d as [| c d IH]; simpl; intros b; [reflexivity |].
  destruct (fold_x_class c) as (_ & _ & Hd & _). rewrite Hd.
  destruct (isdigit c) eqn:E; [| reflexivity].
  rewrite (fold_x_digit c E). apply IH.
Qed.

Lemma TS_NUMBER_fold n d p p' :
  buf p' = buf p ->
  lex_fold (TS_NUMBER u n d p) (TS_NUMBER u n (map fold_x d) p').
Proof.
  intros Hb. unfold TS_NUMBER, lex_fold.
  rewrite number_digits_fold.
  destruct (number_digits n d) as [n1 d1]. simpl fst. simpl snd.
  rewrite peek_fold, tl_fold, peek_fold.
  destruct (fold_x_class (peek d1)) as (_ & _ & _ & _ & _ & Hdot & _).
  destruct (fold_x_class (peek (tl d1))) as (_ & _ & Hdg & _).
  rewrite Hdot, Hdg.
  destruct (is_char (peek d1) ".");
    [| simpl; repeat split; auto].
  destruct (negb (isdigit (peek (tl d1)))); [exact I |].
  rewrite fraction_digits_fold, Hb.
  destruct (fraction_digits u (tl d1) _) as [d3 b3].
  simpl. repeat split; auto.
Qed.

Lemma TS_FUNCNAME_fold d p p' :
  buf p' = buf p ->
  lex_fold (TS_FUNCNAME u d p) (TS_FUNCNAME u (map fold_x d) p').
Proof.
  intros Hb.
  destruct (alpha_span d) as (w & rest & -> & Hw & Hrest).
  unfold TS_FUNCNAME, lex_fold. rewrite map_app.
  assert (Hw' : Forall (fun c => isalpha c = true) (map fold_x w)).
  { apply Forall_map. eapply Forall_impl; [| exact Hw].
    intros c Hc. destruct (fold_x_class c) as (_ & _ & _ & Ha & _).
    rewrite Ha. exact Hc. }
  assert (Hrest' : isalpha (peek (map fold_x rest)) = false).
  { rewrite peek_fold.
    destruct (fold_x_class (peek rest)) as (_ & _ & _ & Ha & _).
    rewrite Ha. exact Hrest. }
  rewrite !name_letters_run by assumption.
  rewrite !funcname_buffer by assumption.
  destruct (funcname_fold w) as [Hi Hfix]. cbv zeta in Hi, Hfix.
  rewrite Hi.
  destruct (find_index String.eqb (string_of_list_ascii w) funcnames)
    as [i |]; simpl; [| exact I].
  rewrite Hfix by discriminate. rewrite Hb. repeat split; auto.
Qed.

Lemma TS_DELIM_fold d p p' :
  buf p' = buf p ->
  lex_fold (TS_DELIM d p) (TS_DELIM (map fold_x d) p').
Proof.
  intros Hb. unfold TS_DELIM, lex_fold. rewrite peek_fold, tl_fold.
  destruct (fold_x_class (peek d)) as (_ & _ & _ & _ & _ & _ & Hf & _).
  rewrite Hf.
  destruct (find_index Ascii.eqb (peek d) delims); simpl;
    [repeat split; auto | exact I].
Qed.

Lemma lex_fold_intro t d d' p p' :
  d' = map fold_x d -> buf p' = buf p ->
  lex_fold (Ok t, set_data d p) (Ok t, set_data d' p').
Proof. intros -> Hb. repeat split; auto. Qed.

Lemma TS_INITIAL_fold d p p' :
  buf p' = buf p ->
  lex_fold (TS_INITIAL u d p) (TS_INITIAL u (map fold_x d) p').
Proof.
  intros Hb. induction d as [| c d IH]; simpl.
  - repeat split; auto.
  - destruct (fold_x_class c) as (Hs & Hx & Hd & Ha & Hn & _ & _ & Hfix).
    rewrite Hs, Hx, Hd, Ha, Hn.
    destruct (isspace c); [exact IH |].
    destruct (is_char (tolower c) "x") eqn:Ex;
      [simpl; repeat split; auto |].
    rewrite (Hfix eq_refl).
    destruct (isdigit c); [apply TS_NUMBER_fold; exact Hb |].
    destruct (isalpha c).
    { pose proof (TS_FUNCNAME_fold (c :: d) p p' Hb) as H.
      simpl map in H. rewrite (Hfix eq_refl) in H. exact H. }
    destruct (is_char c NUL).
    { apply lex_fold_intro; [| exact Hb].
      change (map fold_x (c :: d)) with (fold_x c :: map fold_x d).
      rewrite (Hfix eq_refl). reflexivity. }
    pose proof (TS_DELIM_fold (c :: d) p p' Hb) as H.
    simpl map in H. rewrite (Hfix eq_refl) in H. exact H.
Qed.

Lemma nextToken_fold p p' :
  same_up_to_x_input p p' ->
  sim_out any_unit same_up_to_x (nextToken u p) (nextToken u p').
Proof.
  intros (Hd & Hb & Hr). unfold nextToken, bind, sim_out.
  pose proof (getToken_post u p) as (_ & R1 & _).
  pose proof (getToken_post u p') as (_ & R2 & _).
  pose proof (TS_INITIAL_fold (data p) p p' Hb) as Hsim.
  unfold getToken in *. rewrite Hd in *. unfold lex_fold in Hsim.
  destruct (TS_INITIAL u (data p) p) as [[t | e |] q];
    destruct (TS_INITIAL u (map fold_x (data p)) p') as [[t' | e' |] q'];
    simpl in *; try contradiction; try exact I.
  destruct Hsim as (Ht & Hdq & Hbq).
  split; [exact I |]. repeat split; simpl; auto.
  rewrite R1, R2. exact Hr.
Qed.

Lemma parse_body_fold f p p' :
  same_up_to_x_input p p' ->
  sim_out any_unit same_up_to_x (parse_body u f p) (parse_body u f p').
Proof.
  intros H0. unfold parse_body.
  pose proof (nextToken_fold H0) as H1.
  assert (Hsim : simulates any_unit same_up_to_x (EXPR u f) (EXPR u f)).
  { apply grammar_simulates with (TR := fun t t' => t' = t).
    - intros t t' ->. apply tok_sim_refl.
    - reflexivity.
    - intros x x' [_ Ht]. exact Ht.
    - intros t t' x x' -> [(Hd & Hb & Hr) Ht].
      repeat split; simpl; auto. rewrite Hr. reflexivity.
    - intros x x' [Hin _]. apply nextToken_fold. exact Hin. }
  assert (H2 : simulates any_unit same_up_to_x
                 (EXPR u f;; expectToken T_END)
                 (EXPR u f;; expectToken T_END)).
  { eapply sim_bind; [exact Hsim |].
    intros _ _ _. apply sim_expectToken with (TR := fun t t' => t' = t).
    - intros t t' ->. apply tok_sim_refl.
    - intros x x' [_ Ht]. exact Ht. }
  set (k := EXPR u f;; expectToken T_END) in *.
  unfold sim_out in H1. unfold bind.
  destruct (nextToken u p) as [[a | e |] q];
    destruct (nextToken u p') as [[a' | e' |] q'];
    simpl in H1; try contradiction; try exact I.
  destruct H1 as [_ Hq]. apply (H2 q q' Hq).
Qed.

End UpperCaseX.

(** X14.  The variable may be written in upper case anywhere: writing
    every ['X'] of the input as ['x'] changes neither what [parse] returns
    nor the program it compiles. *)
Theorem upper_case_variable u s p :
  parse_result u (fold_x_string s) p = parse_result u s p /\
  rpn (parse_state u (fold_x_string s) p) = rpn (parse_state u s p).
Proof.
  unfold parse_result, parse_state, parse.
  assert (Hfuel : parse_fuel (fold_x_string s) = parse_fuel s).
  { unfold parse_fuel, fold_x_string.
    rewrite <- !length_list_ascii_of_string,
      list_ascii_of_string_of_list_ascii, length_map. reflexivity. }
  rewrite Hfuel. unfold parse_with.
  set (p0 := mkParser (list_ascii_of_string s) (token p)
                      (v_reserve u 80 v_empty) []).
  set (p0' := mkParser (list_ascii_of_string (fold_x_string s)) (token p)
                       (v_reserve u 80 v_empty) []).
  assert (H0 : same_up_to_x_input p0 p0').
  { repeat split. simpl. unfold fold_x_string.
    apply list_ascii_of_string_of_list_ascii. }
  pose proof (parse_body_fold u (parse_fuel s) H0) as H1.
  pose proof (@parse_body_halts u s p0 eq_refl) as T1.
  unfold sim_out, halts in *.
  destruct (parse_body u (parse_fuel s) p0) as [[a | e |] q];
    destruct (parse_body u (parse_fuel s) p0') as [[a' | e' |] q'];
    simpl in *; try contradiction; try (contradiction T1; reflexivity).
  - destruct H1 as [_ [(_ & _ & Hr) _]]. auto.
  - auto.
Qed.
